(** * A shallow embedding of the rarch classification engine

    Sources: src/src/engine.rs (Engine), src/src/config.rs (Rule,
    ConflictStrategy), src/src/journal.rs (Operation, OpType,
    JournalEntry) and the [Undo] arm of src/src/main.rs.

    Conventions of the model.
    - Rust strings and paths are Rocq [string]s (bytes).  [str::to_lowercase]
      (Unicode case mapping) is an input of the model ([env_lowercase]);
      the one-byte unit of [parse_age] is lowered as an ASCII letter, which
      is what [to_lowercase] does on ASCII.  [to_string_lossy] and
      [from_utf8_lossy] replace ill-formed UTF-8 by U+FFFD as [Utf8Chunks]
      delimits it.
    - Paths are Unix paths, taken apart exactly as [Path::components]
      does; [==] on [Path] is equality of component lists.
    - A panic ([unwrap] on [None], [split_at] off a char boundary, an
      arithmetic overflow) is the outcome [Panic loc]; an [anyhow] error
      is [Err msg].
    - The crates the engine calls ([infer], [regex], [sha2], the local
      time zone of [chrono]), [str::to_lowercase] and the AI oracle are
      inputs of the model
      ([Env]); the file system is a type class ([Fs]). *)

From Stdlib Require Import ZArith Lia.
From stdpp Require Import base list gmap strings pretty.
From Stdlib Require Import Ascii String.

Open Scope Z_scope.

(* ------------------------------------------------------------------ *)
(** ** Outcomes: a value or a panic *)

Inductive outcome (A : Type) : Type :=
| Ret : A -> outcome A
| Panic : string -> outcome A.
Arguments Ret {A} _.
Arguments Panic {A} _.

Definition obind {A B} (m : outcome A) (k : A -> outcome B) : outcome B :=
  match m with
  | Ret a => k a
  | Panic w => Panic w
  end.

Definition ofmap {A B} (f : A -> B) (m : outcome A) : outcome B :=
  obind m (fun a => Ret (f a)).

Notation "x <-? m ;; k" := (obind m (fun x => k))
  (at level 100, m at next level, right associativity).

(** [anyhow::Result] *)
Inductive result (A : Type) : Type :=
| Ok : A -> result A
| Err : string -> result A.
Arguments Ok {A} _.
Arguments Err {A} _.

(* ------------------------------------------------------------------ *)
(** ** String primitives of [str] *)

Definition byte_of (c : ascii) : Z := Z.of_nat (nat_of_ascii c).

(** [char::to_ascii_lowercase] on a byte; on an ASCII character this is
    also what [str::to_lowercase] gives. *)
Definition lower_char (c : ascii) : ascii :=
  let n := nat_of_ascii c in
  if (65 <=? n)%nat && (n <=? 90)%nat then ascii_of_nat (n + 32) else c.

(** [str::to_ascii_lowercase]: agrees with [str::to_lowercase] on ASCII
    strings (used for the scenarios' environment). *)
Fixpoint ascii_lowercase (s : string) : string :=
  match s with
  | EmptyString => EmptyString
  | String c r => String (lower_char c) (ascii_lowercase r)
  end.

Fixpoint starts_with (s p : string) : bool :=
  match p, s with
  | EmptyString, _ => true
  | String c p', String d s' => Ascii.eqb c d && starts_with s' p'
  | String _ _, EmptyString => false
  end.

Definition ends_with (s p : string) : bool :=
  let n := String.length s in
  let m := String.length p in
  (m <=? n)%nat && String.eqb (substring (n - m) m s) p.

Fixpoint contains (s p : string) : bool :=
  starts_with s p ||
  match s with
  | EmptyString => false
  | String _ r => contains r p
  end.

(** [str::replace] with a non-empty pattern: non-overlapping matches,
    left to right.  [fuel] is the length of [s]. *)
Fixpoint replace_aux (fuel : nat) (s p r : string) : string :=
  match fuel with
  | O => s
  | S fuel' =>
    match s with
    | EmptyString => EmptyString
    | String c s' =>
      if starts_with s p
      then (r +:+ replace_aux fuel' (substring (String.length p) (String.length s) s) p r)%string
      else String c (replace_aux fuel' s' p r)
    end
  end.

Definition replace (s p r : string) : string := replace_aux (String.length s) s p r.

Example replace_ex : replace "${ext}/${name}_copy" "${name}" "test" = "${ext}/test_copy".
Proof. reflexivity. Qed.

(* ------------------------------------------------------------------ *)
(** ** Unix paths, as [std::path::Path] takes them apart *)

Inductive component : Type :=
| RootDir
| CurDir
| ParentDir
| Normal (s : string).

#[global] Instance component_eq_dec : EqDecision component.
Proof. solve_decision. Defined.

(** [s.split('/')] *)
Fixpoint split_slash (s : string) : list string :=
  match s with
  | EmptyString => [EmptyString]
  | String c r =>
    match split_slash r with
    | [] => [String c EmptyString]
    | w :: ws => if Ascii.eqb c "/"%char then EmptyString :: w :: ws
                 else String c w :: ws
    end
  end.

(** [Components::parse_single_component]: empty parts and [.] are
    dropped in the body of a path. *)
Definition parse_single_component (w : string) : option component :=
  if String.eqb w EmptyString then None
  else if String.eqb w "." then None
  else if String.eqb w ".." then Some ParentDir
  else Some (Normal w).

Definition has_root (p : string) : bool := starts_with p "/".

(** [Path::is_absolute] on Unix *)
Definition is_absolute (p : string) : bool := has_root p.

(** [Path::components]: a leading [RootDir], or a leading [CurDir] for a
    relative path that is [.] or starts with [./], then the body. *)
Definition components (p : string) : list component :=
  (if has_root p then [RootDir]
   else if String.eqb p "." || starts_with p "./" then [CurDir] else [])
  ++ omap parse_single_component (split_slash p).

(** [impl PartialEq for Path]: equality of the components *)
Definition path_eqb (p q : string) : bool :=
  bool_decide (components p = components q).

Definition component_str (c : component) : string :=
  match c with
  | RootDir => "/"
  | CurDir => "."
  | ParentDir => ".."
  | Normal s => s
  end.

Fixpoint join_slash (ws : list string) : string :=
  match ws with
  | [] => EmptyString
  | [w] => w
  | w :: ws' => (w +:+ "/" +:+ join_slash ws')%string
  end.

(** The path made of a list of components ([Components::as_path]). *)
Definition render (cs : list component) : string :=
  match cs with
  | RootDir :: rest => ("/" +:+ join_slash (map component_str rest))%string
  | _ => join_slash (map component_str cs)
  end.

(** [Path::file_name] *)
Definition path_file_name (p : string) : option string :=
  match last (components p) with
  | Some (Normal s) => Some s
  | _ => None
  end.

(** [Path::parent] *)
Definition path_parent (p : string) : option string :=
  match last (components p) with
  | None | Some RootDir => None
  | Some _ => Some (render (removelast (components p)))
  end.

(** [PathBuf::join] (= [push]) on Unix: an absolute argument replaces
    the path, otherwise a separator is added when the base is non-empty
    and does not end with one. *)
Definition path_join (base q : string) : string :=
  if is_absolute q then q
  else if negb (String.eqb base EmptyString) && negb (ends_with base "/")
  then (base +:+ "/" +:+ q)%string
  else (base +:+ q)%string.

(** index of the last [.] of a string *)
Fixpoint last_dot_aux (i : nat) (s : string) (acc : option nat) : option nat :=
  match s with
  | EmptyString => acc
  | String c r =>
    last_dot_aux (S i) r (if Ascii.eqb c "."%char then Some i else acc)
  end.

(** [rsplit_file_at_dot]: [(before, after)] of the last dot *)
Definition rsplit_file_at_dot (file : string) : option string * option string :=
  if String.eqb file ".." then (Some file, None)
  else match last_dot_aux 0 file None with
       | None => (None, Some file)
       | Some i =>
         let before := substring 0 i file in
         let after := substring (S i) (String.length file) file in
         if String.eqb before EmptyString then (Some file, None)
         else (Some before, Some after)
       end.

(** [Path::file_stem]: [before.or(after)] *)
Definition path_file_stem (p : string) : option string :=
  match path_file_name p with
  | None => None
  | Some f =>
    match rsplit_file_at_dot f with
    | (Some b, _) => Some b
    | (None, a) => a
    end
  end.

(** [Path::extension]: [before.and(after)] *)
Definition path_extension (p : string) : option string :=
  match path_file_name p with
  | None => None
  | Some f =>
    match rsplit_file_at_dot f with
    | (Some _, a) => a
    | (None, _) => None
    end
  end.

Example path_ex1 : path_file_name "/d/a.txt/." = Some "a.txt"
  /\ path_file_stem "test.txt" = Some "test"
  /\ path_extension "test.txt" = Some "txt"
  /\ path_extension ".bashrc" = None
  /\ path_file_stem "..." = Some ".."
  /\ path_parent "/d/a.txt" = Some "/d"
  /\ path_parent "a.txt" = Some EmptyString
  /\ path_join "/d" "x/y" = "/d/x/y"
  /\ path_join "/d" "/e" = "/e"
  /\ path_file_name (path_join "/d" "..") = None
  /\ path_eqb "/d/./a.txt" "/d//a.txt" = true.
Proof. vm_compute. repeat split. Qed.

(* ------------------------------------------------------------------ *)
(** ** Data model (config.rs, journal.rs) *)

Inductive ConflictStrategy : Type :=
| Rename
| Overwrite
| Skip.

(** [#[default] Rename] *)
Definition conflict_default : ConflictStrategy := Rename.

(** [config::Rule]; [ai_extract] is never read by the engine and is
    left out.  [u64] fields are [Z]s in [0, 2^64). *)
Record Rule : Type := mkRule {
  rule_name : string;
  rule_extensions : option (list string);
  rule_regex : option string;
  rule_ai_prompt : option string;
  rule_ai_rename_prompt : option string;
  rule_target : string;
  rule_min_size : option Z;
  rule_max_age : option string;
  rule_mime : option string;
  rule_type : option string;
  rule_conflict : option ConflictStrategy
}.

(** [Rule::default()] with a name and a target *)
Definition basic_rule (name target : string) : Rule :=
  mkRule name None None None None target None None None None None.

Record Config : Type := mkConfig {
  config_rules : list Rule;
  config_ai_api_base : string;
  config_ai_model : string
}.

Inductive OpType : Type :=
| Move
| HardLink (original : string).

#[global] Instance OpType_eq_dec : EqDecision OpType.
Proof. solve_decision. Defined.

Record Operation : Type := mkOp {
  op_from : string;
  op_to : string;
  op_type : OpType;
  op_rule_name : option string
}.

(** [journal::JournalEntry]; the timestamp is left out. *)
Record JournalEntry : Type := mkJournal {
  journal_operations : list Operation
}.

(* ------------------------------------------------------------------ *)
(** ** What the engine observes of a file, and its collaborators *)

(** [std::fs::Metadata]: [is_file], [len], [modified()] (nanoseconds
    since the epoch, [None] when the platform cannot tell). *)
Record Metadata : Type := mkMetadata {
  md_is_file : bool;
  md_len : Z;
  md_modified : option Z
}.

(** A file at one instant: [fs::metadata(path).ok()] and its content
    ([None] when it cannot be opened or read). *)
Record FileView : Type := mkView {
  fv_metadata : option Metadata;
  fv_content : option string
}.

(** [ai::AiOracle]: the two capabilities the engine calls. *)
Record Oracle : Type := mkOracle {
  matches_prompt : string -> option string -> string -> bool;
  suggest_name : string -> option string -> string -> string
}.

Record Env : Type := mkEnv {
  env_infer : string -> option (string * string);   (** [infer::get]: (extension, mime_type) *)
  env_regex : string -> string -> option bool;      (** [Regex::new(re)] then [is_match] *)
  env_oracle : string -> string -> Oracle;           (** [AiOracle::new(api_base, model)] *)
  env_now : Z;                                       (** [Utc::now()], nanoseconds *)
  env_local_date : Z -> Z * Z * Z;                   (** local (year, month, day) of an instant *)
  env_sha256_hex : string -> string;                 (** [hex::encode(Sha256(..))] *)
  env_lowercase : string -> string                   (** [str::to_lowercase] *)
}.

Record Engine : Type := mkEngine {
  engine_config : Config;
  engine_base_dir : string
}.

(** [Engine::new]: no oracle when [ai_api_base] is empty. *)
Definition engine_ai (env : Env) (e : Engine) : option Oracle :=
  if String.eqb (config_ai_api_base (engine_config e)) EmptyString then None
  else Some (env_oracle env (config_ai_api_base (engine_config e))
                            (config_ai_model (engine_config e))).

(* ------------------------------------------------------------------ *)
(** ** [Engine::parse_age] *)

Definition i64_min : Z := - 2 ^ 63.
Definition i64_max : Z := 2 ^ 63 - 1.

Definition digit_val (c : ascii) : option Z :=
  let n := byte_of c in
  if (48 <=? n) && (n <=? 57) then Some (n - 48) else None.

Fixpoint digits_aux (s : string) (acc : Z) : option Z :=
  match s with
  | EmptyString => Some acc
  | String c r =>
    match digit_val c with
    | Some d => digits_aux r (acc * 10 + d)
    | None => None
    end
  end.

(** one or more decimal digits *)
Definition parse_digits (s : string) : option Z :=
  match s with
  | EmptyString => None
  | _ => digits_aux s 0
  end.

(** [str::parse::<i64>]: an optional sign, then digits, in range *)
Definition parse_i64 (s : string) : option Z :=
  let v := match s with
           | String "+"%char r => parse_digits r
           | String "-"%char r => option_map Z.opp (parse_digits r)
           | _ => parse_digits s
           end in
  match v with
  | Some n => if (i64_min <=? n) && (n <=? i64_max) then Some n else None
  | None => None
  end.

(** [i64] multiplication; an overflow panics (debug build). *)
Definition i64_mul (a b : Z) : outcome Z :=
  let p := a * b in
  if (i64_min <=? p) && (p <=? i64_max) then Ret p
  else Panic "attempt to multiply with overflow".

(** [TimeDelta::seconds]-style constructors: the product must fit in
    [i64] and the delta in +-[i64::MAX] milliseconds, else they panic.
    Durations are nanoseconds. *)
Definition max_delta_secs : Z := i64_max / 1000.

Definition delta_of (n unit_secs : Z) : outcome Z :=
  secs <-? i64_mul n unit_secs ;;
  if (- max_delta_secs <=? secs) && (secs <=? max_delta_secs)
  then Ret (secs * 1000000000)
  else Panic "TimeDelta out of bounds".

(** [s.split_at(s.len() - 1)] panics on an empty string and off a char
    boundary (a last byte that continues a multi-byte character). *)
Definition parse_age (s : string) : outcome (option Z) :=
  let n := String.length s in
  match n with
  | O => Panic "attempt to subtract with overflow"
  | S k =>
    match String.get k s with
    | None => Panic "split_at"
    | Some last_c =>
      if 128 <=? byte_of last_c then Panic "byte index is not a char boundary"
      else
        let num_part := substring 0 k s in
        match parse_i64 num_part with
        | None => Ret None
        | Some num =>
          let u := lower_char last_c in
          if Ascii.eqb u "d"%char then ofmap Some (delta_of num 86400)
          else if Ascii.eqb u "w"%char then ofmap Some (delta_of num 604800)
          else if Ascii.eqb u "m"%char then
            (n30 <-? i64_mul num 30 ;; ofmap Some (delta_of n30 86400))
          else if Ascii.eqb u "y"%char then
            (n365 <-? i64_mul num 365 ;; ofmap Some (delta_of n365 86400))
          else if Ascii.eqb u "h"%char then ofmap Some (delta_of num 3600)
          else Ret None
        end
    end
  end.

(* ------------------------------------------------------------------ *)
(** ** [Engine::match_rule] *)

Definition in_range (lo hi b : Z) : bool := (lo <=? b) && (b <=? hi).
Definition cont_byte (b : Z) : bool := in_range 128 191 b.

Fixpoint bytes_of (s : string) : list Z :=
  match s with
  | EmptyString => []
  | String c r => byte_of c :: bytes_of r
  end.

(** [std::str::from_utf8(..).is_ok()] *)
Fixpoint utf8_ok (l : list Z) : bool :=
  match l with
  | [] => true
  | b :: r =>
    if b <? 128 then utf8_ok r
    else if in_range 194 223 b then
      match r with c1 :: r' => cont_byte c1 && utf8_ok r' | _ => false end
    else if in_range 224 239 b then
      match r with
      | c1 :: c2 :: r' =>
        (if b =? 224 then in_range 160 191 c1
         else if b =? 237 then in_range 128 159 c1
         else cont_byte c1) && cont_byte c2 && utf8_ok r'
      | _ => false
      end
    else if in_range 240 244 b then
      match r with
      | c1 :: c2 :: c3 :: r' =>
        (if b =? 240 then in_range 144 191 c1
         else if b =? 244 then in_range 128 143 c1
         else cont_byte c1) && cont_byte c2 && cont_byte c3 && utf8_ok r'
      | _ => false
      end
    else false
  end.

Definition utf8_valid (s : string) : bool := utf8_ok (bytes_of s).

(** One step of [Utf8Chunks::next] at a lead byte [b] followed by [r]:
    whether a well-formed character starts here, and how many bytes it
    takes or, if not, how many bytes the ill-formed prefix takes (a
    missing byte reads as 0, which no check accepts). *)
Definition utf8_step (b : Z) (r : list Z) : bool * nat :=
  let nth k := default 0 (r !! k) in
  if b <? 128 then (true, 1%nat)
  else if in_range 194 223 b then
    if cont_byte (nth 0%nat) then (true, 2%nat) else (false, 1%nat)
  else if in_range 224 239 b then
    if (if b =? 224 then in_range 160 191 (nth 0%nat)
        else if b =? 237 then in_range 128 159 (nth 0%nat)
        else cont_byte (nth 0%nat)) then
      if cont_byte (nth 1%nat) then (true, 3%nat) else (false, 2%nat)
    else (false, 1%nat)
  else if in_range 240 244 b then
    if (if b =? 240 then in_range 144 191 (nth 0%nat)
        else if b =? 244 then in_range 128 143 (nth 0%nat)
        else cont_byte (nth 0%nat)) then
      if cont_byte (nth 1%nat) then
        if cont_byte (nth 2%nat) then (true, 4%nat) else (false, 3%nat)
      else (false, 2%nat)
    else (false, 1%nat)
  else (false, 1%nat).

(** U+FFFD REPLACEMENT CHARACTER in UTF-8 *)
Definition replacement_bytes : list Z := [239; 191; 189].

Fixpoint lossy_bytes (fuel : nat) (l : list Z) : list Z :=
  match fuel with
  | O => []
  | S fuel' =>
    match l with
    | [] => []
    | b :: r =>
      let '(ok, n) := utf8_step b r in
      (if ok then take n l else replacement_bytes) ++ lossy_bytes fuel' (drop n l)
    end
  end.

Fixpoint string_of_bytes (l : list Z) : string :=
  match l with
  | [] => EmptyString
  | b :: r => String (ascii_of_nat (Z.to_nat b)) (string_of_bytes r)
  end.

(** [String::from_utf8_lossy], and [OsStr::to_string_lossy] on Unix:
    each ill-formed prefix becomes one U+FFFD. *)
Definition from_utf8_lossy (s : string) : string :=
  string_of_bytes (lossy_bytes (String.length s) (bytes_of s)).

(** [OsStr::to_str] *)
Definition os_to_str (s : string) : option string :=
  if utf8_valid s then Some s else None.

Definition file_name_str (path : string) : option string :=
  match path_file_name path with Some f => os_to_str f | None => None end.

Definition extension_str (path : string) : option string :=
  match path_extension path with Some x => os_to_str x | None => None end.

(** The MIME check: [rule_mime == actual_mime] or a [type/*] wildcard
    whose prefix [type/] starts [actual_mime]. *)
Definition mime_match (rule_mime actual_mime : string) : bool :=
  String.eqb rule_mime actual_mime
  || (ends_with rule_mime "/*"
      && starts_with actual_mime
           (substring 0 (String.length rule_mime - 1) rule_mime)).

(** The preset check on [rule.r#type] *)
Definition type_match (rule_type actual_mime : string) : bool :=
  if String.eqb rule_type "image" then starts_with actual_mime "image/"
  else if String.eqb rule_type "video" then starts_with actual_mime "video/"
  else if String.eqb rule_type "audio" then starts_with actual_mime "audio/"
  else if String.eqb rule_type "document" then
    contains actual_mime "pdf" || contains actual_mime "word"
    || contains actual_mime "text"
  else false.

Definition opt_string_eqb (a b : option string) : bool :=
  match a, b with
  | Some x, Some y => String.eqb x y
  | None, None => true
  | _, _ => false
  end.

(** The extension check: [rule_exts.iter().any(..)] *)
Definition ext_match (to_lowercase : string -> string) (rule_exts : list string)
    (detected_ext file_ext : option string) : bool :=
  existsb (fun e =>
    let e_low := to_lowercase e in
    opt_string_eqb (Some e_low) detected_ext
    || opt_string_eqb (Some e_low) file_ext) rule_exts.

(** A call [ai_oracle.matches_prompt(filename, snippet, prompt)] *)
Definition AiQuery : Type := (string * option string * string)%type.

(** The 512-byte snippet handed to the oracle, when it is UTF-8. *)
Definition ai_snippet (v : FileView) : option string :=
  match fv_content v with
  | Some c =>
    let b := substring 0 512 c in
    if utf8_valid b then Some b else None
  | None => None
  end.

Section MatchRule.
Variable env : Env.
Variable ai : option Oracle.
Variable path : string.
Variable v : FileView.
Variable md : Metadata.
Variables detected_ext detected_mime file_ext : option string.

  (** The five predicates of one rule, each tried only while [matched]
      is still [false]; the second component is the oracle call made. *)
Definition rule_mime_matches (rule : Rule) : bool :=
    match rule_mime rule, detected_mime with
    | Some rm, Some am => mime_match rm am
    | _, _ => false
    end.

Definition rule_type_matches (rule : Rule) : bool :=
    match rule_type rule, detected_mime with
    | Some rt, Some am => type_match rt am
    | _, _ => false
    end.

Definition rule_ext_matches (rule : Rule) : bool :=
    match rule_extensions rule with
    | Some es => ext_match (env_lowercase env) es detected_ext file_ext
    | None => false
    end.

Definition rule_regex_matches (rule : Rule) : bool :=
    match rule_regex rule, file_name_str path with
    | Some re, Some filename =>
      match env_regex env re filename with
      | Some true => true
      | _ => false
      end
    | _, _ => false
    end.

Definition rule_predicates (rule : Rule) : bool * option AiQuery :=
    if rule_mime_matches rule then (true, None) else
    if rule_type_matches rule then (true, None) else
    if rule_ext_matches rule then (true, None) else
    if rule_regex_matches rule then (true, None) else
    match rule_ai_prompt rule, file_name_str path, ai with
    | Some prompt, Some filename, Some o =>
      let snippet := ai_snippet v in
      (matches_prompt o filename snippet prompt, Some (filename, snippet, prompt))
    | _, _, _ => (false, None)
    end.

  (** [size < min_size] *)
Definition size_filter_fails (rule : Rule) : bool :=
    match rule_min_size rule with
    | Some min_size => md_len md <? min_size
    | None => false
    end.

  (** [duration_since_mod < duration] *)
Definition age_filter_fails (rule : Rule) : outcome bool :=
    match rule_max_age rule with
    | None => Ret false
    | Some max_age_str =>
      d <-? parse_age max_age_str ;;
      match d, md_modified md with
      | Some duration, Some modified => Ret (env_now env - modified <? duration)
      | _, _ => Ret false
      end
    end.

  (** [for rule in &self.config.rules { .. }] *)
Fixpoint match_scan (rules : list Rule) : outcome (option Rule) :=
    match rules with
    | [] => Ret None
    | rule :: rest =>
      if fst (rule_predicates rule) then
        if size_filter_fails rule then match_scan rest
        else
          skip <-? age_filter_fails rule ;;
          if skip then match_scan rest else Ret (Some rule)
      else match_scan rest
    end.
End MatchRule.

(** [infer::get] on the first 128 bytes *)
Definition detected_info (env : Env) (v : FileView) : option (string * string) :=
  match fv_content v with
  | Some c => env_infer env (substring 0 128 c)
  | None => None
  end.

(** the filename's extension, lower-cased *)
Definition literal_ext (env : Env) (path : string) : option string :=
  option_map (env_lowercase env) (extension_str path).

Definition match_rule (env : Env) (e : Engine) (path : string) (v : FileView)
    : outcome (option Rule) :=
  match fv_metadata v with
  | None => Ret None
  | Some md =>
    let info := detected_info env v in
    let detected_ext := option_map fst info in
    let detected_mime := option_map snd info in
    let file_ext := literal_ext env path in
    match_scan env (engine_ai env e) path v md detected_ext detected_mime file_ext
      (config_rules (engine_config e))
  end.

(* ------------------------------------------------------------------ *)
(** ** [Engine::resolve_placeholders] and [Engine::resolve_target_path] *)

Fixpoint zeros (n : nat) : string :=
  match n with O => EmptyString | S k => String "0"%char (zeros k) end.

Definition pad_left (n : nat) (s : string) : string :=
  (zeros (n - String.length s) +:+ s)%string.

(** [%Y]: four digits, with a sign outside [0, 9999] *)
Definition fmt_year (y : Z) : string :=
  if (0 <=? y) && (y <=? 9999) then pad_left 4 (pretty (Z.to_N y))
  else ((if Z.ltb y 0 then "-" else "+") +:+ pad_left 4 (pretty (Z.to_N (Z.abs y))))%string.

(** [%m], [%d] *)
Definition fmt2 (n : Z) : string := pad_left 2 (pretty (Z.to_N n)).

Definition default_rename_prompt : string :=
  "Suggest a descriptive filename without extension".

(** The stem and the file name are taken with [to_string_lossy]; the
    oracle receives the [from_utf8_lossy] text of the 512-byte prefix. *)
Definition resolve_placeholders (env : Env) (e : Engine) (rule : Rule)
    (path : string) (v : FileView) : string :=
  let stem := from_utf8_lossy (default EmptyString (path_file_stem path)) in
  let filename := from_utf8_lossy (default EmptyString (path_file_name path)) in
  let resolved := replace (rule_target rule) "${name}" stem in
  let resolved := replace resolved "${filename}" filename in
  let resolved :=
    if contains resolved "${ai_name}" then
      match file_name_str path, engine_ai env e with
      | Some filename_str, Some ai_oracle =>
        let context :=
          match rule_ai_rename_prompt rule with
          | Some p => p
          | None => default default_rename_prompt (rule_ai_prompt rule)
          end in
        let content_snippet :=
          option_map (fun c => from_utf8_lossy (substring 0 512 c)) (fv_content v) in
        let suggested := suggest_name ai_oracle filename_str content_snippet context in
        replace resolved "${ai_name}" suggested
      | _, _ => replace resolved "${ai_name}" stem
      end
    else resolved in
  let resolved :=
    match extension_str path with
    | Some ext => replace resolved "${ext}" ext
    | None => resolved
    end in
  match fv_metadata v with
  | Some md =>
    match md_modified md with
    | Some modified =>
      let '(y, m, d) := env_local_date env modified in
      let resolved := replace resolved "${year}" (fmt_year y) in
      let resolved := replace resolved "${month}" (fmt2 m) in
      replace resolved "${day}" (fmt2 d)
    | None => resolved
    end
  | None => resolved
  end.

Definition has_filename_placeholder (target : string) : bool :=
  contains target "${ai_name}" || contains target "${ext}"
  || contains target "${name}" || contains target "${filename}".

Definition resolve_target_path (env : Env) (e : Engine) (rule : Rule)
    (path : string) (v : FileView) : outcome string :=
  let resolved_target := resolve_placeholders env e rule path v in
  if has_filename_placeholder (rule_target rule) then
    Ret (if is_absolute resolved_target then resolved_target
         else path_join (engine_base_dir e) resolved_target)
  else
    let target_dir := if is_absolute resolved_target then resolved_target
                      else path_join (engine_base_dir e) resolved_target in
    match path_file_name path with
    | Some fn => Ret (path_join target_dir fn)
    | None => Panic "called `Option::unwrap()` on a `None` value (engine.rs:83)"
    end.

(* ------------------------------------------------------------------ *)
(** ** [Engine::process_single_file] (watch mode) *)

Definition path_is_file (v : FileView) : bool :=
  match fv_metadata v with Some md => md_is_file md | None => false end.

Definition process_single_file (env : Env) (e : Engine) (path : string)
    (v : FileView) : outcome (result (option Operation)) :=
  if negb (path_is_file v) then Ret (Ok None) else
  r <-? match_rule env e path v ;;
  match r with
  | Some rule =>
    target_path <-? resolve_target_path env e rule path v ;;
    if path_eqb path target_path then Ret (Ok None)
    else Ret (Ok (Some (mkOp path target_path Move (Some (rule_name rule)))))
  | None => Ret (Ok None)
  end.

(* ------------------------------------------------------------------ *)
(** ** [Engine::calculate_hash] and [Engine::dry_run] *)

Definition calculate_hash (env : Env) (v : FileView) : option string :=
  option_map (env_sha256_hex env) (fv_content v).

(** The part of a dry-run task that does not touch [seen_hashes]:
    the matched rule and its resolved target. *)
Definition plan_file (env : Env) (e : Engine) (path : string) (v : FileView)
    : outcome (option (Rule * string)) :=
  r <-? match_rule env e path v ;;
  match r with
  | Some rule =>
    target_path <-? resolve_target_path env e rule path v ;;
    Ret (Some (rule, target_path))
  | None => Ret None
  end.

(** The critical section on [seen_hashes] *)
Definition register (seen_hashes : gmap string string) (hash : option string)
    (target_path : string) : gmap string string * OpType :=
  match hash with
  | Some h =>
    match seen_hashes !! h with
    | Some original_target => (seen_hashes, HardLink original_target)
    | None => (<[h := target_path]> seen_hashes, Move)
    end
  | None => (seen_hashes, Move)
  end.

Fixpoint omapM {A B} (f : A -> outcome B) (l : list A) : outcome (list B) :=
  match l with
  | [] => Ret []
  | x :: r => y <-? f x ;; ys <-? omapM f r ;; Ret (y :: ys)
  end.

Section DryRun.
Variable env : Env.
Variable files : list (string * FileView).
Variable plans : list (option (Rule * string)).

  (** The tasks enter the critical section in the order [sched] (a
      permutation of the file indices chosen by the scheduler); the
      operation of task [i] lands in slot [i] of the indexed [collect]. *)
Fixpoint register_sched (sched : list nat) (seen_hashes : gmap string string)
      (slots : list (option Operation)) : gmap string string * list (option Operation) :=
    match sched with
    | [] => (seen_hashes, slots)
    | i :: rest =>
      match files !! i, plans !! i with
      | Some (path, v), Some (Some (rule, target_path)) =>
        let '(seen', ty) := register seen_hashes (calculate_hash env v) target_path in
        register_sched rest seen'
          (<[i := Some (mkOp path target_path ty (Some (rule_name rule)))]> slots)
      | _, _ => register_sched rest seen_hashes slots
      end
    end.
End DryRun.

(** [dry_run] over the listed files ([WalkDir] at depth 1, files only)
    and a schedule; a panicking task makes the whole pass panic. *)
Definition dry_run_slots (env : Env) (e : Engine) (files : list (string * FileView))
    (sched : list nat) : outcome (gmap string string * list (option Operation)) :=
  plans <-? omapM (fun '(p, v) => plan_file env e p v) files ;;
  Ret (register_sched env files plans sched ∅ (replicate (List.length files) None)).

Definition dry_run (env : Env) (e : Engine) (files : list (string * FileView))
    (sched : list nat) : outcome (list Operation) :=
  r <-? dry_run_slots env e files sched ;;
  Ret (omap id r.2).

(* ------------------------------------------------------------------ *)
(** ** The journal line ([serde_json::to_string(op)]) *)

Definition chr (n : nat) : string := String (ascii_of_nat n) EmptyString.
Definition quote : string := chr 34.
Definition backslash : string := chr 92.

Definition hex_digit (n : Z) : ascii :=
  ascii_of_nat (Z.to_nat (if n <? 10 then 48 + n else 87 + n)).

(** serde_json's string escapes *)
Fixpoint json_escape (s : string) : string :=
  match s with
  | EmptyString => EmptyString
  | String c r =>
    let b := byte_of c in
    let esc :=
      if b =? 34 then (backslash +:+ quote)%string
      else if b =? 92 then (backslash +:+ backslash)%string
      else if b =? 8 then (backslash +:+ "b")%string
      else if b =? 9 then (backslash +:+ "t")%string
      else if b =? 10 then (backslash +:+ "n")%string
      else if b =? 12 then (backslash +:+ "f")%string
      else if b =? 13 then (backslash +:+ "r")%string
      else if b <? 32 then
        (backslash +:+ "u00" +:+
         String (hex_digit (b / 16)) (String (hex_digit (b mod 16)) EmptyString))%string
      else String c EmptyString in
    (esc +:+ json_escape r)%string
  end.

Definition json_str (s : string) : string := (quote +:+ json_escape s +:+ quote)%string.

Definition json_field (k : string) (v : string) : string :=
  (json_str k +:+ ":" +:+ v)%string.

(** [serde_json::to_string(op)] fails exactly when a [PathBuf] field is
    not UTF-8 ([Path::serialize] needs [to_str]). *)
Definition op_serializable (op : Operation) : bool :=
  utf8_valid (op_from op) && utf8_valid (op_to op) &&
  match op_type op with Move => true | HardLink p => utf8_valid p end.

(** its text when it succeeds *)
Definition op_json (op : Operation) : string :=
  ("{" +:+ json_field "from" (json_str (op_from op)) +:+
   "," +:+ json_field "to" (json_str (op_to op)) +:+
   "," +:+ json_field "op_type"
     (match op_type op with
      | Move => json_str "Move"
      | HardLink p => ("{" +:+ json_field "HardLink" (json_str p) +:+ "}")%string
      end) +:+
   "," +:+ json_field "rule_name"
     (match op_rule_name op with Some n => json_str n | None => "null" end) +:+ "}")%string.

(* ------------------------------------------------------------------ *)
(** ** The file system the engine acts on *)

(** Each effect returns the new state and whether it succeeded.
    [fs_move_file] is [fs_extra::file::move_file] with
    [CopyOptions::new()]; [fs_open_append] is the
    [OpenOptions::new().create(true).append(true).open(path)] of
    [JournalEntry::append_to_file] and [fs_append_line] its [writeln!] on
    the opened file; [fs_list_files] is the [WalkDir] listing at depth 1,
    files only. *)
Class Fs (St : Type) := {
  fs_exists : St -> string -> bool;
  fs_view : St -> string -> FileView;
  fs_create_dir_all : St -> string -> St * bool;
  fs_move_file : St -> string -> string -> St * bool;
  fs_remove_file : St -> string -> St * bool;
  fs_hard_link : St -> string -> string -> St * bool;
  fs_open_append : St -> string -> St * bool;
  fs_append_line : St -> string -> string -> St * bool;
  fs_list_files : St -> string -> list string
}.

(** [JournalEntry::append_to_file] *)
Definition append_to_file {St} `{Fs St} (s : St) (path : string) (op : Operation) : St * bool :=
  let '(s1, opened) := fs_open_append s path in
  if negb opened then (s1, false)
  else if op_serializable op then fs_append_line s1 path (op_json op)
  else (s1, false).

(* ------------------------------------------------------------------ *)
(** ** [Engine::handle_conflict] *)

(** [format!("{} ({})", stem, i)] or [format!("{} ({}).{}", stem, i, ext)] *)
Definition rename_candidate (stem ext : string) (i : nat) : string :=
  if String.eqb ext EmptyString then (stem +:+ " (" +:+ pretty (N.of_nat i) +:+ ")")%string
  else (stem +:+ " (" +:+ pretty (N.of_nat i) +:+ ")." +:+ ext)%string.

(** [parent.join(new_name)] for the [i]-th candidate *)
Definition rename_path (parent stem ext : string) (i : nat) : string :=
  path_join parent (rename_candidate stem ext i).

Section Conflict.
Context {St : Type} `{Fs St}.
Variable s : St.
Variables parent stem ext : string.

  (** [for i in 1..999]: [fuel] candidates left, [i] the next one *)
Fixpoint rename_probe (fuel : nat) (i : nat) : option string :=
    match fuel with
    | O => None
    | S fuel' =>
      let new_path := rename_path parent stem ext i in
      if negb (fs_exists s new_path) then Some new_path
      else rename_probe fuel' (S i)
    end.
End Conflict.

Definition unwrap_rule_msg : string :=
  "called `Option::unwrap()` on a `None` value (engine.rs:300)".

Definition handle_conflict {St} `{Fs St} (env : Env) (e : Engine) (s : St) (op : Operation)
    : outcome (result (option string)) :=
  if negb (fs_exists s (op_to op)) then Ret (Ok (Some (op_to op))) else
  r <-? match_rule env e (op_from op) (fs_view s (op_from op)) ;;
  match r with
  | None => Panic unwrap_rule_msg
  | Some rule =>
    match default conflict_default (rule_conflict rule) with
    | Skip => Ret (Ok None)
    | Overwrite => Ret (Ok (Some (op_to op)))
    | Rename =>
      match option_map os_to_str (path_file_stem (op_to op)) with
      | None | Some None => Panic "called `Option::unwrap()` on a `None` value (engine.rs:307)"
      | Some (Some stem) =>
        let ext := default EmptyString (extension_str (op_to op)) in
        match path_parent (op_to op) with
        | None => Panic "called `Option::unwrap()` on a `None` value (engine.rs:309)"
        | Some parent =>
          match rename_probe s parent stem ext 998 1 with
          | Some new_path => Ret (Ok (Some new_path))
          | None => Ret (Err "Too many file name conflicts")
          end
        end
      end
    end
  end.

(* ------------------------------------------------------------------ *)
(** ** [Engine::execute] *)

Section Execute.
Context {St : Type} `{Fs St}.
Variable env : Env.
Variable e : Engine.
Variable journal_path : option string.

  (** The filesystem effect of one operation at its final destination *)
Definition apply_op (s : St) (op : Operation) (final_to : string) : St * bool :=
    match op_type op with
    | Move => fs_move_file s (op_from op) final_to
    | HardLink original_path =>
      if fs_exists s (op_from op) then
        let '(s', removed) := fs_remove_file s (op_from op) in
        if removed then fs_hard_link s' original_path final_to else (s', false)
      else (s, true)
    end.

  (** The record written for a successful operation *)
Definition with_to (op : Operation) (to : string) : Operation :=
    mkOp (op_from op) to (op_type op) (op_rule_name op).

  (** One iteration of [for (i, op) in ops.into_iter().enumerate()]:
      the new state and the entry pushed on [journal.operations], if any.
      The journal file line is written right after the effect; its
      failure is ignored ([let _ =]). *)
Definition execute_step (s : St) (op : Operation) : outcome (St * option Operation) :=
    match path_parent (op_to op) with
    | None => Panic "Target path has no parent"
    | Some target_parent =>
      let '(s1, dir_ok) :=
        if fs_exists s target_parent then (s, true)
        else fs_create_dir_all s target_parent in
      if negb dir_ok then Ret (s1, None) else
      hc <-? handle_conflict env e s1 op ;;
      match hc with
      | Ok (Some final_to) =>
        let '(s2, ok) := apply_op s1 op final_to in
        if ok then
          let final_op := with_to op final_to in
          let s3 := match journal_path with
                    | Some p => fst (append_to_file s2 p final_op)
                    | None => s2
                    end in
          Ret (s3, Some final_op)
        else Ret (s2, None)
      | Ok None => Ret (s1, None)
      | Err _ => Ret (s1, None)
      end
    end.

Fixpoint execute_loop (s : St) (ops : list Operation) (journal : list Operation)
      : outcome (St * list Operation) :=
    match ops with
    | [] => Ret (s, journal)
    | op :: rest =>
      r <-? execute_step s op ;;
      let '(s', entry) := r in
      execute_loop s' rest (journal ++ option_list entry)
    end.

  (** [execute]: a dry run over the directory, then the loop. *)
Definition execute (s : St) (sched : list nat) : outcome (St * JournalEntry) :=
    let base := engine_base_dir e in
    let files := map (fun p => (p, fs_view s p)) (fs_list_files s base) in
    ops <-? dry_run env e files sched ;;
    r <-? execute_loop s ops [] ;;
    Ret (r.1, mkJournal r.2).
End Execute.

(* ------------------------------------------------------------------ *)
(** ** [Commands::Undo] in main.rs *)

Section Undo.
Context {St : Type} `{Fs St}.

  (** The loop over [journal.operations.iter().rev()]; a failed
      [move_file] leaves the command through [?]. *)
Fixpoint undo_loop (s : St) (ops : list Operation) (count : nat) : St * result nat :=
    match ops with
    | [] => (s, Ok count)
    | op :: rest =>
      if fs_exists s (op_to op) then
        let '(s', ok) := fs_move_file s (op_to op) (op_from op) in
        if ok then undo_loop s' rest (S count)
        else (s', Err "move_file")
      else undo_loop s rest count
    end.

  (** [Ok n] is the run that prints [Undo complete. n files restored.] *)
Definition undo (s : St) (journal : JournalEntry) : St * result nat :=
    undo_loop s (rev (journal_operations journal)) 0.
End Undo.

(* ------------------------------------------------------------------ *)
(** ** A concrete file system, for running scenarios *)

Module ToyFs.
  (** Files with their contents, directories, journal lines written, and
      paths on which appends fail (a read-only journal location). *)
Record t : Type := mk {
    files : list (string * string);
    dirs : list string;
    lines : list (string * string);
    read_only : list string
  }.

Definition lookup (s : t) (p : string) : option string :=
    option_map snd (List.find (fun '(q, _) => path_eqb p q) (files s)).

Definition is_dir (s : t) (p : string) : bool := existsb (path_eqb p) (dirs s).

Definition exists_ (s : t) (p : string) : bool :=
    match lookup s p with Some _ => true | None => is_dir s p end.

Definition drop (s : t) (p : string) : list (string * string) :=
    List.filter (fun '(q, _) => negb (path_eqb p q)) (files s).

Definition view (s : t) (p : string) : FileView :=
    match lookup s p with
    | Some c => mkView (Some (mkMetadata true (Z.of_nat (String.length c)) (Some 0))) (Some c)
    | None => if is_dir s p then mkView (Some (mkMetadata false 0 (Some 0))) None
              else mkView None None
    end.

#[global] Instance toy_fs : Fs t := {
    fs_exists := exists_;
    fs_view := view;
    fs_create_dir_all := fun s p => (mk (files s) (p :: dirs s) (lines s) (read_only s), true);
    fs_move_file := fun s a b =>
      match lookup s a with
      | Some c => if exists_ s b then (s, false)
                  else (mk ((b, c) :: drop s a) (dirs s) (lines s) (read_only s), true)
      | None => (s, false)
      end;
    fs_remove_file := fun s a =>
      match lookup s a with
      | Some _ => (mk (drop s a) (dirs s) (lines s) (read_only s), true)
      | None => (s, false)
      end;
    fs_hard_link := fun s a b =>
      match lookup s a with
      | Some c => if exists_ s b then (s, false)
                  else (mk ((b, c) :: files s) (dirs s) (lines s) (read_only s), true)
      | None => (s, false)
      end;
    fs_open_append := fun s p =>
      if existsb (path_eqb p) (read_only s) then (s, false) else (s, true);
    fs_append_line := fun s p l =>
      if existsb (path_eqb p) (read_only s) then (s, false)
      else (mk (files s) (dirs s) (lines s ++ [(p, l)]) (read_only s), true);
    fs_list_files := fun s base =>
      map fst (List.filter (fun '(q, _) =>
        match path_parent q with Some d => path_eqb d base | None => false end) (files s))
  }.
End ToyFs.

(** A collaborator environment for scenarios: [infer] recognises
    nothing, every regex is invalid, no oracle answers yes, the digest is
    the content itself, every instant is 2024-01-01. *)
Definition env0 : Env :=
  mkEnv (fun _ => None) (fun _ _ => None)
        (fun _ _ => mkOracle (fun _ _ _ => false) (fun f _ _ => f))
        0 (fun _ => (2024, 1, 1)) (fun c => c) ascii_lowercase.

Definition txt_rule (name target : string) : Rule :=
  mkRule name (Some ["txt"]) None None None target None None None None None.

Definition engine_at (base : string) (rules : list Rule) : Engine :=
  mkEngine (mkConfig rules EmptyString EmptyString) base.

(* ------------------------------------------------------------------ *)
(** ** The rule predicates in the words of the spec (section 4.1)

    Stated independently of the code, to be compared with
    [rule_predicates]. *)
Definition spec_mime_pred (rule : Rule) (detected_mime : option string) : Prop :=
  exists rm am, rule_mime rule = Some rm /\ detected_mime = Some am /\
    (rm = am \/ exists t r, rm = (t +:+ "/*")%string /\ am = (t +:+ "/" +:+ r)%string).

Definition has_prefix (s p : string) : Prop := exists r, s = (p +:+ r)%string.
Definition has_infix (s p : string) : Prop := exists a b, s = (a +:+ p +:+ b)%string.

Definition spec_type_pred (rule : Rule) (detected_mime : option string) : Prop :=
  exists rt am, rule_type rule = Some rt /\ detected_mime = Some am /\
    ((rt = "image" /\ has_prefix am "image/")
     \/ (rt = "video" /\ has_prefix am "video/")
     \/ (rt = "audio" /\ has_prefix am "audio/")
     \/ (rt = "document" /\ (has_infix am "pdf" \/ has_infix am "word" \/ has_infix am "text"))).

Definition spec_ext_pred (to_lowercase : string -> string) (rule : Rule)
    (sniffed literal : option string) : Prop :=
  exists es x, rule_extensions rule = Some es /\ In x es /\
    ((exists d, sniffed = Some d /\ to_lowercase d = to_lowercase x)
     \/ (exists l, literal = Some l /\ to_lowercase l = to_lowercase x)).

Definition spec_regex_pred (env : Env) (rule : Rule) (path : string) : Prop :=
  exists re fn, rule_regex rule = Some re /\ file_name_str path = Some fn
    /\ env_regex env re fn = Some true.

(* ------------------------------------------------------------------ *)
(** ** Whether one rule fully succeeds for a file

    Its predicates match, [min_size] does not exclude the file, and the
    [max_age] filter does not skip it. *)
Definition rule_accepts (env : Env) (e : Engine) (path : string) (v : FileView)
    (md : Metadata) (rule : Rule) : outcome bool :=
  let info := detected_info env v in
  if fst (rule_predicates env (engine_ai env e) path v (option_map fst info)
            (option_map snd info) (literal_ext env path) rule) then
    if size_filter_fails md rule then Ret false
    else (skip <-? age_filter_fails env md rule ;; Ret (negb skip))
  else Ret false.

(** Two [.txt] rules; the first one wants at least 100 bytes. *)
Definition small_then_any : Engine :=
  engine_at "/d" [mkRule "big" (Some ["txt"]) None None None "big" (Some 100) None None None None;
                  txt_rule "any" "any"].

(* ------------------------------------------------------------------ *)
(** ** Scenarios and auxiliary notions of the properties *)

(** The digest of file [i] of the listing, as [calculate_hash] computes it *)
Definition file_hash (env : Env) (files : list (string * FileView)) (i : nat) : option string :=
  match files !! i with
  | Some (_, v) => calculate_hash env v
  | None => None
  end.

(** The invariant of the critical section: a digest absent from the
    table belongs to no planned operation; a digest present belongs to
    exactly one [Move], whose destination the table records, and every
    other operation with that digest links to it. *)
Definition dedup_inv (env : Env) (files : list (string * FileView))
    (seen : gmap string string) (slots : list (option Operation)) : Prop :=
  (forall i op, slots !! i = Some (Some op) -> file_hash env files i = None ->
     op_type op = Move) /\
  (forall h, match seen !! h with
   | None => forall i op, slots !! i = Some (Some op) -> file_hash env files i <> Some h
   | Some p => exists c opc, slots !! c = Some (Some opc) /\
       file_hash env files c = Some h /\ op_type opc = Move /\ op_to opc = p /\
       forall j opj, slots !! j = Some (Some opj) -> file_hash env files j = Some h ->
         j <> c -> op_type opj = HardLink p
   end).

Definition dedup_files : list (string * FileView) :=
  [("/d/a.txt", mkView (Some (mkMetadata true 1 (Some 0))) (Some "x"));
   ("/d/b.txt", mkView (Some (mkMetadata true 1 (Some 0))) (Some "x"));
   ("/d/c.txt", mkView (Some (mkMetadata true 1 (Some 0))) None)].

Inductive undo_run {St : Type} `{Fs St} : St -> list Operation -> St -> nat -> Prop :=
| undo_run_nil s : undo_run s [] s 0
| undo_run_skip s op rest s' n :
    fs_exists s (op_to op) = false -> undo_run s rest s' n -> undo_run s (op :: rest) s' n
| undo_run_move s op rest s1 s' n :
    fs_exists s (op_to op) = true -> fs_move_file s (op_to op) (op_from op) = (s1, true) ->
    undo_run s1 rest s' n -> undo_run s (op :: rest) s' (S n).

Definition hardlink_gone_op : Operation :=
  mkOp "/d/y.txt" "/d/out/y.txt" (HardLink "/d/out/x.txt") (Some "t").
Definition moved_op : Operation := mkOp "/d/x.txt" "/d/out/x.txt" Move (Some "t").

Definition undo_clash : ToyFs.t := ToyFs.mk [("/d/a", "1"); ("/d/out/a", "2")] ["/d"; "/d/out"] [] [].
Definition undo_journal : JournalEntry :=
  mkJournal [mkOp "/d/a" "/d/out/a" Move None; mkOp "/d/c" "/d/gone" Move None].

Definition undo_after_move : ToyFs.t := ToyFs.mk [("/d/out/a", "1")] ["/d"; "/d/out"] [] [].

Definition s9 : ToyFs.t :=
  ToyFs.mk [("/d/x.txt", "same"); ("/d/y.txt", "same"); ("/d/out/x.txt", "other")]
    ["/d"; "/d/out"] [] [].

Definition keep_file : FileView := mkView (Some (mkMetadata true 5 (Some 0))) (Some "hello").

(** A file name whose stem is the single byte 0xFF (not UTF-8). *)
Definition ff_name : string := String "255"%char ".txt".

(** ** Auxiliary notions of the additional properties *)

(** The unit dispatch of [parse_age], on the lowered unit letter. *)
Definition unit_delta (u : ascii) (num : Z) : outcome (option Z) :=
  if Ascii.eqb u "d"%char then ofmap Some (delta_of num 86400)
  else if Ascii.eqb u "w"%char then ofmap Some (delta_of num 604800)
  else if Ascii.eqb u "m"%char then
    (n30 <-? i64_mul num 30 ;; ofmap Some (delta_of n30 86400))
  else if Ascii.eqb u "y"%char then
    (n365 <-? i64_mul num 365 ;; ofmap Some (delta_of n365 86400))
  else if Ascii.eqb u "h"%char then ofmap Some (delta_of num 3600)
  else Ret None.

(** Where an operation goes and why: its source, destination and rule name. *)
Definition op_route (op : Operation) : string * string * option string :=
  (op_from op, op_to op, op_rule_name op).

(** The route the per-file planning step gives to the [i]-th listed file. *)
Definition planned_route (files : list (string * FileView))
    (plans : list (option (Rule * string))) (i : nat) : option (string * string * option string) :=
  match files !! i, plans !! i with
  | Some (path, _), Some (Some (rule, t)) => Some (path, t, Some (rule_name rule))
  | _, _ => None
  end.

(** Three files with pairwise distinct digests (the third one unreadable). *)
Definition distinct_files : list (string * FileView) :=
  [("/d/a.txt", mkView (Some (mkMetadata true 1 (Some 0))) (Some "x"));
   ("/d/b.txt", mkView (Some (mkMetadata true 1 (Some 0))) (Some "y"));
   ("/d/c.txt", mkView (Some (mkMetadata true 1 (Some 0))) None)].

(** A string whose bytes are all at least 32 (no control character). *)
Definition printable (s : string) : bool := forallb (Z.leb 32) (bytes_of s).

(* ================================================================== *)
(** * Properties *)

Lemma path_join_absolute (base q : string) :
  is_absolute q = true -> path_join base q = q.
Proof. unfold path_join. now intros ->. Qed.

Lemma join_if_absolute (base q : string) :
  (if is_absolute q then q else path_join base q) = path_join base q.
Proof. unfold path_join. now destruct (is_absolute q). Qed.



(** Claim C10: when the destination exists, [handle_conflict] matches
    the source again and unwraps the result: it panics (and so does the
    iteration of [execute]) when no rule matches then, e.g. when the
    source's metadata can no longer be read; when a rule still matches,
    that unwrap does not panic. *)
Theorem handle_conflict_unwrap_panics {St : Type} `{Fs St} (env : Env) (e : Engine)
    (jp : option string) (s : St) (op : Operation) :
  (fs_exists s (op_to op) = true ->
   match_rule env e (op_from op) (fs_view s (op_from op)) = Ret None ->
   handle_conflict env e s op = Panic unwrap_rule_msg
   /\ (forall tp : string, path_parent (op_to op) = Some tp -> fs_exists s tp = true ->
       execute_step env e jp s op = Panic unwrap_rule_msg))
  /\ (fv_metadata (fs_view s (op_from op)) = None ->
      match_rule env e (op_from op) (fs_view s (op_from op)) = Ret None)
  /\ (forall r : Rule,
      match_rule env e (op_from op) (fs_view s (op_from op)) = Ret (Some r) ->
      handle_conflict env e s op <> Panic unwrap_rule_msg).
Proof.
  assert (Hhc : fs_exists s (op_to op) = true ->
                match_rule env e (op_from op) (fs_view s (op_from op)) = Ret None ->
                handle_conflict env e s op = Panic unwrap_rule_msg).
  { intros Hex Hm. unfold handle_conflict. rewrite Hex, Hm. reflexivity. }
  split; [|split].
  - intros Hex Hm. split; [now apply Hhc|].
    intros tp Hp Htp. unfold execute_step. rewrite Hp, Htp. cbv beta iota.
    rewrite (Hhc Hex Hm). reflexivity.
  - intros Hmd. unfold match_rule. now rewrite Hmd.
  - intros r Hm. unfold handle_conflict.
    destruct (fs_exists s (op_to op)); cbn [negb]; [|discriminate].
    rewrite Hm. cbn [obind].
    destruct (default conflict_default (rule_conflict r)); try discriminate.
    destruct (option_map os_to_str (path_file_stem (op_to op))) as [[stem|]|];
      try discriminate.
    destruct (path_parent (op_to op)) as [parent|]; try discriminate.
    destruct (rename_probe s parent stem _ 998 1); discriminate.
Qed.

Lemma handle_conflict_unwrap_panics_witness :
  let s := ToyFs.mk [("/d/out/a.txt", "x")] ["/d"; "/d/out"] [] [] in
  let op := mkOp "/d/a.txt" "/d/out/a.txt" Move (Some "t") in
  fv_metadata (fs_view s (op_from op)) = None
  /\ handle_conflict env0 (engine_at "/d" [txt_rule "t" "out"]) s op = Panic unwrap_rule_msg
  /\ execute_step env0 (engine_at "/d" [txt_rule "t" "out"]) None s op = Panic unwrap_rule_msg.
Proof.
  intros s op.
  pose proof (handle_conflict_unwrap_panics env0 (engine_at "/d" [txt_rule "t" "out"])
                None s op) as [H1 [H2 _]].
  assert (Hex : fs_exists s (op_to op) = true) by (vm_compute; reflexivity).
  assert (Hmd : fv_metadata (fs_view s (op_from op)) = None) by (vm_compute; reflexivity).
  destruct (H1 Hex (H2 Hmd)) as [Hh Hx].
  split; [exact Hmd|]. split; [exact Hh|].
  apply (Hx "/d/out"); vm_compute; reflexivity.
Defined.

Section RenameProbe.
Context {St : Type} `{Fs St}.
Variables (s : St) (parent stem ext : string).

Lemma rename_probe_first (fuel i k : nat) :
    (i <= k < i + fuel)%nat ->
    fs_exists s (rename_path parent stem ext k) = false ->
    (forall j, (i <= j < k)%nat -> fs_exists s (rename_path parent stem ext j) = true) ->
    rename_probe s parent stem ext fuel i = Some (rename_path parent stem ext k).
  Proof.
    revert i. induction fuel as [|fuel IH]; intros i Hk Hfree Hprev; [lia|].
    cbn [rename_probe]. fold (rename_path parent stem ext i).
    destruct (decide (i = k)) as [->|Hne].
    - now rewrite Hfree.
    - rewrite (Hprev i) by lia. cbn [negb].
      apply IH; [lia|exact Hfree|]. intros j Hj. apply Hprev. lia.
  Qed.

Lemma rename_probe_exhausted (fuel i : nat) :
    (forall j, (i <= j < i + fuel)%nat -> fs_exists s (rename_path parent stem ext j) = true) ->
    rename_probe s parent stem ext fuel i = None.
  Proof.
    revert i. induction fuel as [|fuel IH]; intros i Hall; [reflexivity|].
    cbn [rename_probe]. fold (rename_path parent stem ext i).
    rewrite (Hall i) by lia. cbn [negb].
    apply IH. intros j Hj. apply Hall. lia.
  Qed.
End RenameProbe.




(** ** String lemmas *)

Lemma starts_with_spec (s p : string) :
  starts_with s p = true <-> exists r, s = (p +:+ r)%string.
Proof.
  revert s. induction p as [|c p IH]; intros s.
  - split; [intros _; now exists s|intros _; destruct s; reflexivity].
  - destruct s as [|d s]; cbn [starts_with].
    + split; [discriminate|]. intros [r Hr]. discriminate.
    + rewrite andb_true_iff, IH. split.
      * intros [Hcd [r ->]]. apply Ascii.eqb_eq in Hcd. subst. now exists r.
      * intros [r Hr]. injection Hr as -> ->. split; [apply Ascii.eqb_refl|now exists r].
Qed.

Lemma contains_spec (s p : string) :
  contains s p = true <-> exists a b, s = (a +:+ p +:+ b)%string.
Proof.
  induction s as [|c s IH].
  - cbn [contains]. rewrite orb_false_r, starts_with_spec. split.
    + intros [r Hr]. exists EmptyString, r. exact Hr.
    + intros [a [b Hab]]. destruct a; [now exists b|discriminate].
  - cbn [contains]. rewrite orb_true_iff, starts_with_spec, IH. split.
    + intros [[r Hr]|[a [b Hab]]].
      * now exists EmptyString, r.
      * exists (String c a), b. now rewrite Hab.
    + intros [a [b Hab]]. destruct a as [|c' a].
      * left. now exists b.
      * right. injection Hab as -> ->. now exists a, b.
Qed.

Lemma append_cons_str (c : ascii) (x y : string) :
  (String c x +:+ y)%string = String c (x +:+ y).
Proof. reflexivity. Qed.

Lemma append_assoc_str (a b c : string) :
  (a +:+ (b +:+ c))%string = ((a +:+ b) +:+ c)%string.
Proof. induction a as [|x a IH]; [reflexivity|]. rewrite !append_cons_str. now rewrite IH. Qed.

Lemma length_app_str (t u : string) :
  String.length (t +:+ u) = (String.length t + String.length u)%nat.
Proof. induction t as [|c t IH]; simpl; [reflexivity|now rewrite IH]. Qed.

Lemma substring_app_skip (t u : string) (k : nat) :
  substring (String.length t) k (t +:+ u) = substring 0 k u.
Proof. induction t as [|c t IH]; [reflexivity|exact IH]. Qed.

Lemma substring_full (u : string) : substring 0 (String.length u) u = u.
Proof. induction u as [|c u IH]; simpl; [reflexivity|now rewrite IH]. Qed.

Lemma substring_prefix_app (t u : string) (k : nat) :
  substring 0 (String.length t + k) (t +:+ u) = (t +:+ substring 0 k u)%string.
Proof. induction t as [|c t IH]; simpl; [reflexivity|now rewrite IH]. Qed.

Lemma substring_split (s : string) (k : nat) :
  (k <= String.length s)%nat ->
  s = (substring 0 k s +:+ substring k (String.length s - k) s)%string.
Proof.
  revert k. induction s as [|c s IH]; intros k Hk.
  - destruct k; reflexivity.
  - destruct k as [|k]; cbn -[substring].
    + cbn [substring]. now rewrite substring_full.
    + cbn [substring]. rewrite append_cons_str. f_equal.
      replace (String.length (String c s) - S k)%nat with (String.length s - k)%nat
        by (cbn; lia).
      apply IH. simpl in Hk. lia.
Qed.

Lemma length_substring_le (s : string) (i k : nat) :
  (i + k <= String.length s)%nat -> String.length (substring i k s) = k.
Proof.
  revert i k. induction s as [|c s IH]; intros i k Hk.
  - cbn in Hk. assert (i = 0 /\ k = 0)%nat as [-> ->] by lia. reflexivity.
  - destruct i as [|i], k as [|k]; cbn in *; try reflexivity.
    + f_equal. apply IH. lia.
    + apply IH. lia.
    + apply IH. lia.
Qed.

Lemma ends_with_spec (s p : string) :
  ends_with s p = true <-> exists t, s = (t +:+ p)%string.
Proof.
  unfold ends_with. rewrite andb_true_iff, Nat.leb_le, String.eqb_eq. split.
  - intros [Hle Hsub]. exists (substring 0 (String.length s - String.length p) s).
    pose proof (substring_split s (String.length s - String.length p)) as Hs.
    replace (String.length s - (String.length s - String.length p))%nat
      with (String.length p) in Hs by lia.
    rewrite Hsub in Hs. apply Hs. lia.
  - intros [t ->]. rewrite length_app_str. split; [lia|].
    replace (String.length t + String.length p - String.length p)%nat
      with (String.length t) by lia.
    rewrite substring_app_skip. apply substring_full.
Qed.

Lemma mime_match_spec (rule_mime actual_mime : string) :
  mime_match rule_mime actual_mime = true <->
  rule_mime = actual_mime
  \/ exists t r, rule_mime = (t +:+ "/*")%string /\ actual_mime = (t +:+ "/" +:+ r)%string.
Proof.
  unfold mime_match. rewrite orb_true_iff, andb_true_iff, String.eqb_eq, ends_with_spec.
  split.
  - intros [H|[[t ->] Hs]]; [now left|right].
    rewrite length_app_str in Hs. cbn [String.length] in Hs.
    replace (String.length t + 2 - 1)%nat with (String.length t + 1)%nat in Hs by lia.
    rewrite substring_prefix_app in Hs. apply starts_with_spec in Hs as [r Hr].
    exists t, r. split; [reflexivity|]. rewrite Hr. cbn. now rewrite <- append_assoc_str.
  - intros [H|[t [r [-> ->]]]]; [now left|right]. split; [now exists t|].
    rewrite length_app_str. cbn [String.length].
    replace (String.length t + 2 - 1)%nat with (String.length t + 1)%nat by lia.
    rewrite substring_prefix_app. apply starts_with_spec. exists r. cbn.
    now rewrite <- append_assoc_str.
Qed.

Lemma type_match_spec (rt am : string) :
  type_match rt am = true <->
  (rt = "image" /\ has_prefix am "image/")
  \/ (rt = "video" /\ has_prefix am "video/")
  \/ (rt = "audio" /\ has_prefix am "audio/")
  \/ (rt = "document" /\ (has_infix am "pdf" \/ has_infix am "word" \/ has_infix am "text")).
Proof.
  unfold type_match, has_prefix, has_infix.
  destruct (String.eqb_spec rt "image") as [->|H1].
  { rewrite starts_with_spec. intuition discriminate. }
  destruct (String.eqb_spec rt "video") as [->|H2].
  { rewrite starts_with_spec. intuition discriminate. }
  destruct (String.eqb_spec rt "audio") as [->|H3].
  { rewrite starts_with_spec. intuition discriminate. }
  destruct (String.eqb_spec rt "document") as [->|H4].
  { rewrite !orb_true_iff, !contains_spec. intuition discriminate. }
  split; [discriminate|]. intuition congruence.
Qed.

Lemma lower_char_idem (c : ascii) : lower_char (lower_char c) = lower_char c.
Proof. destruct c as [[] [] [] [] [] [] [] []]; vm_compute; reflexivity. Qed.


Lemma opt_string_eqb_some (x : string) (o : option string) :
  opt_string_eqb (Some x) o = true <-> o = Some x.
Proof.
  destruct o as [y|]; cbn; [|split; discriminate].
  rewrite String.eqb_eq. split; congruence.
Qed.

Lemma ext_match_spec (to_lowercase : string -> string) (es : list string)
    (sniffed literal : option string) :
  (forall d, sniffed = Some d -> to_lowercase d = d) ->
  ext_match to_lowercase es sniffed (option_map to_lowercase literal) = true <->
  exists x, In x es /\
    ((exists d, sniffed = Some d /\ to_lowercase d = to_lowercase x)
     \/ (exists l, literal = Some l /\ to_lowercase l = to_lowercase x)).
Proof.
  intros Hlow. unfold ext_match. rewrite existsb_exists. split.
  - intros [x [Hin Hx]]. exists x. split; [exact Hin|].
    apply orb_true_iff in Hx as [Hx|Hx]; apply opt_string_eqb_some in Hx.
    + left. exists (to_lowercase x). split; [exact Hx|]. exact (Hlow _ Hx).
    + right. destruct literal as [l|]; [|discriminate]. injection Hx as Hx.
      now exists l.
  - intros [x [Hin Hx]]. exists x. split; [exact Hin|]. apply orb_true_iff.
    destruct Hx as [[d [-> Hd]]|[l [-> Hl]]].
    + left. apply opt_string_eqb_some. rewrite <- Hd. f_equal. symmetry. now apply Hlow.
    + right. apply opt_string_eqb_some. cbn. now rewrite Hl.
Qed.

Lemma rule_mime_matches_spec (rule : Rule) (dmime : option string) :
  rule_mime_matches dmime rule = true <-> spec_mime_pred rule dmime.
Proof.
  unfold rule_mime_matches, spec_mime_pred.
  destruct (rule_mime rule) as [rm|], dmime as [am|];
    try (split; [discriminate|intros (? & ? & ? & ? & _); discriminate]).
  rewrite mime_match_spec. split.
  - intros H. now exists rm, am.
  - intros (rm' & am' & H1 & H2 & H). injection H1 as <-. injection H2 as <-. exact H.
Qed.

Lemma rule_type_matches_spec (rule : Rule) (dmime : option string) :
  rule_type_matches dmime rule = true <-> spec_type_pred rule dmime.
Proof.
  unfold rule_type_matches, spec_type_pred.
  destruct (rule_type rule) as [rt|], dmime as [am|];
    try (split; [discriminate|intros (? & ? & ? & ? & _); discriminate]).
  rewrite type_match_spec. split.
  - intros H. now exists rt, am.
  - intros (rt' & am' & H1 & H2 & H). injection H1 as <-. injection H2 as <-. exact H.
Qed.

Lemma rule_ext_matches_spec (env : Env) (rule : Rule) (dext literal : option string) :
  (forall d, dext = Some d -> env_lowercase env d = d) ->
  rule_ext_matches env dext (option_map (env_lowercase env) literal) rule = true
  <-> spec_ext_pred (env_lowercase env) rule dext literal.
Proof.
  intros Hlow. unfold rule_ext_matches, spec_ext_pred.
  destruct (rule_extensions rule) as [es|];
    [|split; [discriminate|intros (? & ? & ? & _); discriminate]].
  rewrite (ext_match_spec (env_lowercase env) es dext literal Hlow). split.
  - intros (x & Hin & H). now exists es, x.
  - intros (es' & x & Hes & Hin & H). injection Hes as <-. now exists x.
Qed.

Lemma rule_regex_matches_spec (env : Env) (rule : Rule) (path : string) :
  rule_regex_matches env path rule = true <-> spec_regex_pred env rule path.
Proof.
  unfold rule_regex_matches, spec_regex_pred.
  destruct (rule_regex rule) as [re|], (file_name_str path) as [fn|];
    try (split; [discriminate|intros (? & ? & ? & ? & _); discriminate]).
  destruct (env_regex env re fn) as [[]|] eqn:E.
  - split; [intros _; now exists re, fn|reflexivity].
  - split; [discriminate|]. intros (re' & fn' & H1 & H2 & H3).
    injection H1 as <-. injection H2 as <-. congruence.
  - split; [discriminate|]. intros (re' & fn' & H1 & H2 & H3).
    injection H1 as <-. injection H2 as <-. congruence.
Qed.



Section FirstMatch.
Variables (env : Env) (e : Engine) (path : string) (v : FileView) (md : Metadata).

Let scan := match_scan env (engine_ai env e) path v md
                (option_map fst (detected_info env v)) (option_map snd (detected_info env v))
                (literal_ext env path).
Let acc := rule_accepts env e path v md.

Lemma match_scan_accept (r : Rule) (rest : list Rule) :
    acc r = Ret true -> scan (r :: rest) = Ret (Some r).
  Proof.
    unfold acc, scan, rule_accepts. cbn [match_scan].
    destruct (fst _); [|discriminate].
    destruct (size_filter_fails md r); [discriminate|].
    destruct (age_filter_fails env md r) as [[]|]; cbn; congruence.
  Qed.

Lemma match_scan_reject (r : Rule) (rest : list Rule) :
    acc r = Ret false -> scan (r :: rest) = scan rest.
  Proof.
    unfold acc, scan, rule_accepts. cbn [match_scan].
    destruct (fst _); [|reflexivity].
    destruct (size_filter_fails md r); [reflexivity|].
    destruct (age_filter_fails env md r) as [[]|]; cbn; congruence.
  Qed.

Lemma match_scan_panic (r : Rule) (rest : list Rule) (m : string) :
    acc r = Panic m -> scan (r :: rest) = Panic m.
  Proof.
    unfold acc, scan, rule_accepts. cbn [match_scan].
    destruct (fst _); [|discriminate].
    destruct (size_filter_fails md r); [discriminate|].
    destruct (age_filter_fails env md r) as [[]|]; cbn; congruence.
  Qed.

Lemma match_scan_first (rules : list Rule) :
    (forall r, scan rules = Ret (Some r) <->
       exists pre post, rules = pre ++ r :: post /\ acc r = Ret true
                        /\ Forall (fun r' => acc r' = Ret false) pre)
    /\ (scan rules = Ret None <-> Forall (fun r => acc r = Ret false) rules)
    /\ (forall m, scan rules = Panic m <->
       exists pre r post, rules = pre ++ r :: post /\ acc r = Panic m
                          /\ Forall (fun r' => acc r' = Ret false) pre).
  Proof.
    induction rules as [|r0 rs IH].
    - split; [|split].
      + intros r. split; [discriminate|]. intros (pre & post & Hl & _).
        destruct pre; discriminate.
      + split; [constructor|reflexivity].
      + intros m. split; [discriminate|]. intros (pre & r & post & Hl & _).
        destruct pre; discriminate.
    - destruct IH as [IHs [IHn IHp]].
      destruct (acc r0) as [[]|m0] eqn:Hb.
      + rewrite (match_scan_accept r0 rs Hb). split; [|split].
        * intros r. split.
          -- intros Hr. injection Hr as <-. exists [], rs. repeat split; auto.
          -- intros (pre & post & Hl & Hacc & Hpre). destruct pre as [|x pre].
             ++ injection Hl as -> _. reflexivity.
             ++ injection Hl as -> _. inversion Hpre. congruence.
        * split; [discriminate|]. intros Hall. inversion Hall. congruence.
        * intros m. split; [discriminate|]. intros (pre & r & post & Hl & Hacc & Hpre).
          destruct pre as [|x pre].
          -- injection Hl as -> _. congruence.
          -- injection Hl as -> _. inversion Hpre. congruence.
      + rewrite (match_scan_reject r0 rs Hb). split; [|split].
        * intros r. rewrite IHs. split.
          -- intros (pre & post & Hl & Hacc & Hpre). exists (r0 :: pre), post.
             rewrite Hl. repeat split; auto.
          -- intros (pre & post & Hl & Hacc & Hpre). destruct pre as [|x pre].
             ++ injection Hl as -> _. congruence.
             ++ injection Hl as -> Hl. inversion Hpre. now exists pre, post.
        * rewrite IHn. split; [intros H; now constructor|intros H; now inversion H].
        * intros m. rewrite IHp. split.
          -- intros (pre & r & post & Hl & Hacc & Hpre). exists (r0 :: pre), r, post.
             rewrite Hl. repeat split; auto.
          -- intros (pre & r & post & Hl & Hacc & Hpre). destruct pre as [|x pre].
             ++ injection Hl as -> _. congruence.
             ++ injection Hl as -> Hl. inversion Hpre. now exists pre, r, post.
      + rewrite (match_scan_panic r0 rs m0 Hb). split; [|split].
        * intros r. split; [discriminate|]. intros (pre & post & Hl & Hacc & Hpre).
          destruct pre as [|x pre].
          -- injection Hl as -> _. congruence.
          -- injection Hl as -> _. inversion Hpre. congruence.
        * split; [discriminate|]. intros Hall. inversion Hall. congruence.
        * intros m. split.
          -- intros Hm. exists [], r0, rs. repeat split; auto. congruence.
          -- intros (pre & r & post & Hl & Hacc & Hpre). destruct pre as [|x pre].
             ++ injection Hl as -> _. congruence.
             ++ injection Hl as -> _. inversion Hpre. congruence.
  Qed.

Lemma rule_accepts_panic (r : Rule) (m : string) :
    acc r = Panic m -> exists a, rule_max_age r = Some a /\ parse_age a = Panic m.
  Proof.
    unfold acc, rule_accepts, age_filter_fails.
    destruct (fst _); [|discriminate].
    destruct (size_filter_fails md r); [discriminate|].
    destruct (rule_max_age r) as [a|]; [|discriminate].
    destruct (parse_age a) as [d|w] eqn:Ha; cbn [obind].
    - destruct d, (md_modified md); discriminate.
    - intros [= ->]. now exists a.
  Qed.
End FirstMatch.




Lemma lookup_insert_slot (slots : list (option Operation)) i o j x :
  slots !! i = Some None ->
  <[i := Some o]> slots !! j = Some (Some x) <->
  (j = i /\ x = o) \/ (j <> i /\ slots !! j = Some (Some x)).
Proof.
  intros Hi. destruct (decide (j = i)) as [->|Hne].
  - rewrite list_lookup_insert_eq by (eapply lookup_lt_Some; eauto).
    split; [intros [= ->]; by left | intros [[_ ->]|[? _]]; [done|congruence]].
  - rewrite list_lookup_insert_ne by congruence.
    split; [intros; by right | intros [[? _]|[_ ?]]; [congruence|done]].
Qed.

Lemma register_sched_inv env files plans sched :
  forall seen slots, NoDup sched ->
  (forall i, i ∈ sched -> slots !! i = Some None) ->
  dedup_inv env files seen slots ->
  let '(seen', slots') := register_sched env files plans sched seen slots in
  dedup_inv env files seen' slots'.
Proof.
  induction sched as [|i rest IH]; intros seen slots Hnd Hfresh Hinv; [exact Hinv|].
  apply NoDup_cons in Hnd as [Hnotin Hnd].
  cbn [register_sched].
  assert (Hi : slots !! i = Some None) by (apply Hfresh; left).
  assert (Hrest : forall j, j ∈ rest -> slots !! j = Some None)
    by (intros j Hj; apply Hfresh; by right).
  destruct (files !! i) as [[path v]|] eqn:Hf; [|by apply IH].
  destruct (plans !! i) as [[[rule t]|]|]; [|by apply IH|by apply IH].
  assert (Hh : file_hash env files i = calculate_hash env v)
    by (unfold file_hash; by rewrite Hf).
  destruct (register seen (calculate_hash env v) t) as [seen' ty] eqn:Hreg.
  apply IH; [done| |].
  { intros j Hj. rewrite list_lookup_insert_ne; [by apply Hrest|].
    intros ->. contradiction. }
  destruct Hinv as [Hmove Htab].
  assert (Hold : forall c opc, slots !! c = Some (Some opc) -> c <> i)
    by (intros c opc Hc ->; congruence).
  split.
  - intros j op Hj Hjh. apply (lookup_insert_slot _ _ _ _ _ Hi) in Hj as [[-> ->]|[_ Hj]]; [|eauto].
    cbn. rewrite Hh in Hjh. rewrite Hjh in Hreg. cbn in Hreg. congruence.
  - intros h. unfold register in Hreg.
    destruct (calculate_hash env v) as [h0|] eqn:Hcv.
    + destruct (seen !! h0) as [p0|] eqn:Hs0.
      * injection Hreg as <- <-. specialize (Htab h).
        destruct (seen !! h) as [p|] eqn:Hs.
        -- destruct Htab as (c & opc & Hc & Hch & Hcm & Hct & Hothers).
           exists c, opc. split; [rewrite list_lookup_insert_ne; [done|apply not_eq_sym; eauto]|].
           do 3 (split; [done|]).
           intros j opj Hj Hjh Hjc. apply (lookup_insert_slot _ _ _ _ _ Hi) in Hj as [[-> ->]|[_ Hj]]; [|eauto].
           cbn. rewrite Hh in Hjh. congruence.
        -- intros j op Hj. apply (lookup_insert_slot _ _ _ _ _ Hi) in Hj as [[-> ->]|[_ Hj]]; [|eauto].
           rewrite Hh. congruence.
      * injection Hreg as <- <-. destruct (decide (h = h0)) as [->|Hne].
        -- rewrite lookup_insert_eq.
           eexists i, _. split; [rewrite list_lookup_insert_eq; [done|eapply lookup_lt_Some; eauto]|].
           cbn. split; [by rewrite Hh|]. do 2 (split; [done|]).
           intros j opj Hj Hjh Hji. apply (lookup_insert_slot _ _ _ _ _ Hi) in Hj as [[-> ->]|[_ Hj]]; [done|].
           specialize (Htab h0). rewrite Hs0 in Htab. exfalso; eapply Htab; eauto.
        -- rewrite lookup_insert_ne by congruence. specialize (Htab h).
           destruct (seen !! h) as [p|] eqn:Hs.
           ++ destruct Htab as (c & opc & Hc & Hch & Hcm & Hct & Hothers).
              exists c, opc. split; [rewrite list_lookup_insert_ne; [done|apply not_eq_sym; eauto]|].
              do 3 (split; [done|]).
              intros j opj Hj Hjh Hjc. apply (lookup_insert_slot _ _ _ _ _ Hi) in Hj as [[-> ->]|[_ Hj]]; [|eauto].
              rewrite Hh in Hjh. congruence.
           ++ intros j op Hj. apply (lookup_insert_slot _ _ _ _ _ Hi) in Hj as [[-> ->]|[_ Hj]]; [|eauto].
              rewrite Hh. congruence.
    + injection Hreg as <- <-. specialize (Htab h).
      destruct (seen !! h) as [p|] eqn:Hs.
      * destruct Htab as (c & opc & Hc & Hch & Hcm & Hct & Hothers).
        exists c, opc. split; [rewrite list_lookup_insert_ne; [done|apply not_eq_sym; eauto]|].
        do 3 (split; [done|]).
        intros j opj Hj Hjh Hjc. apply (lookup_insert_slot _ _ _ _ _ Hi) in Hj as [[-> ->]|[_ Hj]]; [|eauto].
        rewrite Hh in Hjh. congruence.
      * intros j op Hj. apply (lookup_insert_slot _ _ _ _ _ Hi) in Hj as [[-> ->]|[_ Hj]]; [|eauto].
        rewrite Hh. congruence.
Qed.

(** Claim C2: in one dry-run pass, whatever order the tasks enter the
    critical section in ([sched], a permutation of the file indices), a
    planned operation whose file has no digest is a [Move]; for every
    digest, exactly one planned operation with that digest is a [Move]
    and every other one is a [HardLink] to that [Move]'s destination,
    which is what the digest table records; and the table holds only
    digests of such [Move]s (never an entry for a failed digest).  The
    operation list of [dry_run] is the filled slots, in index order. *)
Theorem dry_run_dedup (env : Env) (e : Engine) (files : list (string * FileView))
    (sched : list nat) (seen : gmap string string) (slots : list (option Operation)) :
  sched ≡ₚ seq 0 (List.length files) ->
  dry_run_slots env e files sched = Ret (seen, slots) ->
  (forall i op, slots !! i = Some (Some op) -> file_hash env files i = None ->
     op_type op = Move) /\
  (forall i op h, slots !! i = Some (Some op) -> file_hash env files i = Some h ->
     exists c opc, slots !! c = Some (Some opc) /\ file_hash env files c = Some h /\
       op_type opc = Move /\ seen !! h = Some (op_to opc) /\
       forall j opj, slots !! j = Some (Some opj) -> file_hash env files j = Some h ->
         (j = c /\ opj = opc) \/ (j <> c /\ op_type opj = HardLink (op_to opc))) /\
  (forall h p, seen !! h = Some p ->
     exists c opc, slots !! c = Some (Some opc) /\ file_hash env files c = Some h /\
       op_type opc = Move /\ op_to opc = p).
Proof.
  intros Hperm Hrun. unfold dry_run_slots in Hrun.
  destruct (omapM _ files) as [plans|] eqn:Hplans; cbn [obind] in Hrun; [|discriminate].
  injection Hrun as Hrun.
  pose proof (register_sched_inv env files plans sched ∅
    (replicate (List.length files) None)) as Hinv.
  rewrite Hrun in Hinv.
  destruct Hinv as [Hmove Htab].
  - rewrite Hperm. apply NoDup_seq.
  - intros i Hi. rewrite Hperm, elem_of_seq in Hi.
    apply lookup_replicate. split; [done|lia].
  - split.
    + intros i op Hi. apply lookup_replicate in Hi as [? _]. discriminate.
    + intros h. rewrite lookup_empty. intros i op Hi.
      apply lookup_replicate in Hi as [? _]. discriminate.
  - split; [exact Hmove|split].
    + intros i op h Hi Hih. specialize (Htab h).
      destruct (seen !! h) as [p|] eqn:Hs; [|exfalso; eapply Htab; eauto].
      destruct Htab as (c & opc & Hc & Hch & Hcm & <- & Hothers).
      exists c, opc. do 4 (split; [done|]).
      intros j opj Hj Hjh. destruct (decide (j = c)) as [->|Hjc].
      * left. split; [done|congruence].
      * right. split; [done|]. eauto.
    + intros h p Hs. specialize (Htab h). rewrite Hs in Htab.
      destruct Htab as (c & opc & Hc & Hch & Hcm & Hct & _). eauto 10.
Qed.

Lemma dry_run_dedup_witness :
  exists seen slots,
    dry_run_slots env0 (engine_at "/d" [txt_rule "t" "out"]) dedup_files [2; 1; 0]%nat
      = Ret (seen, slots) /\
  (forall i op, slots !! i = Some (Some op) -> file_hash env0 dedup_files i = None ->
     op_type op = Move) /\
  (forall i op h, slots !! i = Some (Some op) -> file_hash env0 dedup_files i = Some h ->
     exists c opc, slots !! c = Some (Some opc) /\ file_hash env0 dedup_files c = Some h /\
       op_type opc = Move /\ seen !! h = Some (op_to opc) /\
       forall j opj, slots !! j = Some (Some opj) -> file_hash env0 dedup_files j = Some h ->
         (j = c /\ opj = opc) \/ (j <> c /\ op_type opj = HardLink (op_to opc))) /\
  (forall h p, seen !! h = Some p ->
     exists c opc, slots !! c = Some (Some opc) /\ file_hash env0 dedup_files c = Some h /\
       op_type opc = Move /\ op_to opc = p).
Proof.
  destruct (dry_run_slots env0 (engine_at "/d" [txt_rule "t" "out"]) dedup_files [2; 1; 0]%nat)
    as [[seen slots]|w] eqn:E; [|vm_compute in E; discriminate].
  exists seen, slots. split; [reflexivity|].
  apply (dry_run_dedup env0 (engine_at "/d" [txt_rule "t" "out"]) dedup_files [2; 1; 0]%nat);
    [|exact E].
  symmetry. exact (Permutation_rev (seq 0 3)).
Defined.

Section ExecuteProps.
Context {St : Type} `{Fs St}.

Lemma execute_step_some env e jp (s : St) op s' x :
  execute_step env e jp s op = Ret (s', Some x) ->
  exists parent s1 t s2,
    path_parent (op_to op) = Some parent /\
    (if fs_exists s parent then (s, true) else fs_create_dir_all s parent) = (s1, true) /\
    handle_conflict env e s1 op = Ret (Ok (Some t)) /\
    apply_op s1 op t = (s2, true) /\ x = with_to op t /\
    s' = match jp with Some p => fst (append_to_file s2 p x) | None => s2 end.
Proof.
  unfold execute_step.
  destruct (path_parent (op_to op)) as [parent|]; [|discriminate].
  destruct (if fs_exists s parent then _ else _) as [s1 dir_ok] eqn:Hdir.
  destruct dir_ok; cbn [negb]; [|discriminate].
  destruct (handle_conflict env e s1 op) as [[[t|]|msg]|w] eqn:Hhc; cbn [obind];
    try discriminate.
  destruct (apply_op s1 op t) as [s2 ok] eqn:Hap. destruct ok; [|discriminate].
  intros [= <- <-]. by exists parent, s1, t, s2.
Qed.

Lemma execute_loop_entries env e jp : forall ops (s : St) acc s' J,
  execute_loop env e jp s ops acc = Ret (s', J) ->
  forall x, x ∈ J -> x ∈ acc \/ exists op, op ∈ ops /\ x = with_to op (op_to x).
Proof.
  induction ops as [|op rest IH]; intros s acc s' J Hrun x Hx; cbn [execute_loop] in Hrun.
  - injection Hrun as _ <-. by left.
  - destruct (execute_step env e jp s op) as [[s1 entry]|w] eqn:Hst; cbn [obind] in Hrun;
      [|discriminate].
    destruct (IH _ _ _ _ Hrun x Hx) as [Hacc|(op' & Hin & ->)].
    + apply elem_of_app in Hacc as [Hacc|Hacc]; [by left|].
      destruct entry as [y|]; cbn in Hacc; [|by apply elem_of_nil in Hacc].
      apply list_elem_of_singleton in Hacc as ->.
      destruct (execute_step_some _ _ _ _ _ _ _ Hst) as (? & ? & t & ? & _ & _ & _ & _ & -> & _).
      right. exists op. split; [left|done].
    + right. exists op'. split; [by right|done].
Qed.

Lemma undo_loop_ok : forall ops (s : St) c s' m,
  undo_loop s ops c = (s', Ok m) <-> exists n, m = (c + n)%nat /\ undo_run s ops s' n.
Proof.
  induction ops as [|op rest IH]; intros s c s' m; cbn [undo_loop].
  - split.
    + intros [= <- <-]. exists 0%nat. split; [lia|constructor].
    + intros (n & -> & Hr). inversion Hr; subst. f_equal. f_equal. lia.
  - destruct (fs_exists s (op_to op)) eqn:Hex.
    + destruct (fs_move_file s (op_to op) (op_from op)) as [s1 ok] eqn:Hmv.
      destruct ok.
      * rewrite IH. split.
        -- intros (n & -> & Hr). exists (S n). split; [lia|]. by eapply undo_run_move.
        -- intros (n & -> & Hr). inversion Hr; subst; [congruence|].
           match goal with Hm : fs_move_file _ _ _ = (_, true) |- _ => rewrite Hmv in Hm end.
           match goal with Hm : (_, _) = (_, true) |- _ => injection Hm as <- end.
           eexists. split; [|eassumption]. lia.
      * split; [discriminate|]. intros (n & -> & Hr). inversion Hr; subst; congruence.
    + rewrite IH. split.
      * intros (n & -> & Hr). exists n. split; [done|]. by constructor.
      * intros (n & -> & Hr). inversion Hr; subst; [|congruence]. by exists n.
Qed.

Lemma undo_loop_err : forall ops (s : St) c s' msg,
  undo_loop s ops c = (s', Err msg) ->
  exists pre op post s1 k, ops = pre ++ op :: post /\ undo_run s pre s1 k /\
    fs_exists s1 (op_to op) = true /\ fs_move_file s1 (op_to op) (op_from op) = (s', false).
Proof.
  induction ops as [|op rest IH]; intros s c s' msg; cbn [undo_loop]; [discriminate|].
  destruct (fs_exists s (op_to op)) eqn:Hex.
  - destruct (fs_move_file s (op_to op) (op_from op)) as [s1 ok] eqn:Hmv.
    destruct ok.
    + intros Hrun. destruct (IH _ _ _ _ Hrun) as (pre & op' & post & s2 & k & -> & Hr & He & Hm).
      exists (op :: pre), op', post, s2, (S k). split; [done|]. split; [|done].
      by eapply undo_run_move.
    + intros [= <- _]. exists [], op, rest, s, 0%nat. repeat split; try done. constructor.
  - intros Hrun. destruct (IH _ _ _ _ Hrun) as (pre & op' & post & s2 & k & -> & Hr & He & Hm).
    exists (op :: pre), op', post, s2, k. split; [done|]. split; [|done]. by constructor.
Qed.

End ExecuteProps.

(** Claim C5 (as the code has it): an operation of [execute] yields a
    journal entry exactly when the parent directory exists or is
    created, conflict handling gives a destination, and the effect
    reports success; the entry is the operation with [to] replaced by
    the final destination, and when a journal path is given its line is
    appended to that file right after the effect, in the state the next
    operation starts from, the append's own failure being ignored.  A
    [HardLink] whose source is already gone reports success without
    doing anything. *)
Theorem execute_step_entry {St : Type} `{Fs St} (env : Env) (e : Engine)
    (journal_path : option string) (s : St) (op : Operation) (s' : St) (x : Operation) :
  execute_step env e journal_path s op = Ret (s', Some x) <->
  exists parent s1 final_to s2,
    path_parent (op_to op) = Some parent /\
    (if fs_exists s parent then (s, true) else fs_create_dir_all s parent) = (s1, true) /\
    handle_conflict env e s1 op = Ret (Ok (Some final_to)) /\
    apply_op s1 op final_to = (s2, true) /\ x = with_to op final_to /\
    s' = match journal_path with Some p => fst (append_to_file s2 p x) | None => s2 end.
Proof.
  split; [apply execute_step_some|].
  intros (parent & s1 & t & s2 & Hp & Hdir & Hhc & Hap & -> & ->).
  unfold execute_step. rewrite Hp, Hdir. cbn [negb]. rewrite Hhc. cbn [obind].
  rewrite Hap. reflexivity.
Qed.

(** A [HardLink] operation whose source is gone yields an entry while
    the file system is left unchanged; with a journal file that cannot
    be appended to, an entry is recorded in memory and no line is
    written. *)
Lemma execute_step_entry_without_effect :
  let s := ToyFs.mk [] ["/d"; "/d/out"] [] [] in
  execute_step env0 (engine_at "/d" [txt_rule "t" "out"]) None s hardlink_gone_op
    = Ret (s, Some hardlink_gone_op) /\
  let s' := ToyFs.mk [("/d/x.txt", "abc")] ["/d"; "/d/out"] [] ["/j"] in
  exists s'', execute_step env0 (engine_at "/d" [txt_rule "t" "out"]) (Some "/j") s' moved_op
    = Ret (s'', Some moved_op) /\ ToyFs.lines s'' = [].
Proof.
  split; [vm_compute; reflexivity|].
  eexists. split; [vm_compute; reflexivity|]. reflexivity.
Qed.

Lemma execute_step_entry_witness :
  exists parent s1 final_to s2,
    path_parent (op_to hardlink_gone_op) = Some parent /\
    (if fs_exists (ToyFs.mk [] ["/d"; "/d/out"] [] []) parent
     then (ToyFs.mk [] ["/d"; "/d/out"] [] [], true)
     else fs_create_dir_all (ToyFs.mk [] ["/d"; "/d/out"] [] []) parent) = (s1, true) /\
    handle_conflict env0 (engine_at "/d" [txt_rule "t" "out"]) s1 hardlink_gone_op
      = Ret (Ok (Some final_to)) /\
    apply_op s1 hardlink_gone_op final_to = (s2, true) /\
    hardlink_gone_op = with_to hardlink_gone_op final_to /\
    ToyFs.mk [] ["/d"; "/d/out"] [] [] = s2.
Proof.
  apply (execute_step_entry env0 (engine_at "/d" [txt_rule "t" "out"]) None).
  vm_compute. reflexivity.
Defined.

(** Claim C6 (as the code has it): undo walks the journal in reverse;
    an entry whose destination is absent is skipped, one whose
    destination exists is moved back and counted.  Undo reports the
    count [n] exactly when this walk completes with [n] moves; a move
    back that fails ends undo with an error at that entry, the earlier
    entries left as they are and no count reported. *)
Theorem undo_spec {St : Type} `{Fs St} (s : St) (journal : JournalEntry) (s' : St) :
  (forall n, undo s journal = (s', Ok n) <->
     undo_run s (rev (journal_operations journal)) s' n) /\
  (forall msg, undo s journal = (s', Err msg) ->
     exists pre op post s1 k, rev (journal_operations journal) = pre ++ op :: post /\
       undo_run s pre s1 k /\ fs_exists s1 (op_to op) = true /\
       fs_move_file s1 (op_to op) (op_from op) = (s', false)).
Proof.
  unfold undo. split.
  - intros n. rewrite undo_loop_ok. split.
    + by intros (k & -> & Hr).
    + intros Hr. by exists n.
  - intros msg. apply undo_loop_err.
Qed.

(** The source of the last entry is occupied again: moving its
    destination back fails, and undo stops with an error before the
    skipped entry and without a count. *)
Lemma undo_aborts_on_occupied_source :
  exists msg, undo undo_clash undo_journal = (undo_clash, Err msg).
Proof. eexists. vm_compute. reflexivity. Qed.

Lemma undo_spec_witness :
  exists s', undo undo_after_move undo_journal = (s', Ok 1%nat) /\
    undo_run undo_after_move (rev (journal_operations undo_journal)) s' 1.
Proof.
  eexists. split; [vm_compute; reflexivity|].
  apply (proj1 (proj1 (undo_spec undo_after_move undo_journal _) 1%nat)).
  vm_compute. reflexivity.
Defined.

(** Claim C9: every entry [execute] records is one of the operations
    planned by its dry run with only [to] changed; in particular the
    path carried by a [HardLink] is the one the dry run took from the
    digest table, even when conflict handling moved the canonical file
    to another name (see [execute_canonical_renamed]). *)
Theorem execute_keeps_planned_link {St : Type} `{Fs St} (env : Env) (e : Engine)
    (journal_path : option string) (s : St) (sched : list nat) (s' : St) (J : JournalEntry) :
  execute env e journal_path s sched = Ret (s', J) ->
  exists ops,
    dry_run env e (map (fun p => (p, fs_view s p)) (fs_list_files s (engine_base_dir e))) sched
      = Ret ops /\
    forall x, x ∈ journal_operations J -> exists op, op ∈ ops /\ x = with_to op (op_to x).
Proof.
  unfold execute.
  destruct (dry_run _ _ _ _) as [ops|w]; cbn [obind]; [|discriminate].
  destruct (execute_loop env e journal_path s ops []) as [[s2 entries]|w] eqn:Hl;
    cbn [obind]; [|discriminate].
  intros [= _ <-]. exists ops. split; [done|]. cbn [journal_operations].
  intros x Hx. destruct (execute_loop_entries _ _ _ _ _ _ _ _ Hl x Hx) as [Hn|Hop]; [|done].
  by apply elem_of_nil in Hn.
Qed.

Lemma execute_keeps_planned_link_witness :
  exists s' J, execute env0 (engine_at "/d" [txt_rule "t" "out"]) (Some "/j") s9 [0; 1]%nat
      = Ret (s', J) /\
    exists ops,
      dry_run env0 (engine_at "/d" [txt_rule "t" "out"])
        (map (fun p => (p, fs_view s9 p)) (fs_list_files s9 "/d")) [0; 1]%nat = Ret ops /\
      forall x, x ∈ journal_operations J -> exists op, op ∈ ops /\ x = with_to op (op_to x).
Proof.
  destruct (execute env0 (engine_at "/d" [txt_rule "t" "out"]) (Some "/j") s9 [0; 1]%nat)
    as [[s' J]|w] eqn:E; [|vm_compute in E; discriminate].
  exists s', J. split; [reflexivity|].
  exact (execute_keeps_planned_link env0 (engine_at "/d" [txt_rule "t" "out"]) (Some "/j")
    s9 [0; 1]%nat s' J E).
Defined.

(** The canonical copy is renamed by the conflict policy, the duplicate
    still links to the planned path, which holds an unrelated file. *)
Lemma execute_canonical_renamed :
  exists s',
    execute env0 (engine_at "/d" [txt_rule "t" "out"]) (Some "/j") s9 [0; 1]%nat
      = Ret (s', mkJournal
          [mkOp "/d/x.txt" "/d/out/x (1).txt" Move (Some "t");
           mkOp "/d/y.txt" "/d/out/y.txt" (HardLink "/d/out/x.txt") (Some "t")]) /\
    ToyFs.lookup s' "/d/out/x (1).txt" = Some "same" /\
    ToyFs.lookup s' "/d/out/y.txt" = Some "other".
Proof. eexists. split; [vm_compute; reflexivity|]. split; vm_compute; reflexivity. Qed.

(** Claim C3, watch-mode half: an operation produced by
    [process_single_file] never has its destination equal to its source
    (as [Path] values). *)
Theorem process_single_file_not_noop (env : Env) (e : Engine) (path : string) (v : FileView)
    (op : Operation) :
  process_single_file env e path v = Ret (Ok (Some op)) ->
  op_from op = path /\ path_eqb (op_from op) (op_to op) = false.
Proof.
  unfold process_single_file.
  destruct (negb (path_is_file v)); [discriminate|].
  destruct (match_rule env e path v) as [[rule|]|w]; cbn [obind]; try discriminate.
  destruct (resolve_target_path env e rule path v) as [t|w]; cbn [obind]; [|discriminate].
  destruct (path_eqb path t) eqn:Heq; [discriminate|].
  intros [= <-]. by split.
Qed.

Lemma process_single_file_not_noop_witness :
  process_single_file env0 (engine_at "/d" [txt_rule "t" "out"]) "/d/a.txt" keep_file
    = Ret (Ok (Some (mkOp "/d/a.txt" "/d/out/a.txt" Move (Some "t")))) /\
  op_from (mkOp "/d/a.txt" "/d/out/a.txt" Move (Some "t")) = "/d/a.txt" /\
  path_eqb "/d/a.txt" "/d/out/a.txt" = false.
Proof.
  split; [vm_compute; reflexivity|].
  apply (process_single_file_not_noop env0 (engine_at "/d" [txt_rule "t" "out"]) "/d/a.txt"
    keep_file). vm_compute. reflexivity.
Defined.

(** Claim C3 fails for [dry_run]: a rule [${filename}] keeps [a.txt] in
    place, [process_single_file] drops the no-op, but [dry_run] plans
    [a.txt -> a.txt], and [execute] then renames the file to
    [a (1).txt]. *)
Lemma dry_run_plans_noop :
  dry_run env0 (engine_at "/d" [txt_rule "keep" "${filename}"]) [("/d/a.txt", keep_file)] [0%nat]
    = Ret [mkOp "/d/a.txt" "/d/a.txt" Move (Some "keep")] /\
  process_single_file env0 (engine_at "/d" [txt_rule "keep" "${filename}"]) "/d/a.txt" keep_file
    = Ret (Ok None) /\
  exists s', execute env0 (engine_at "/d" [txt_rule "keep" "${filename}"]) (Some "/j")
      (ToyFs.mk [("/d/a.txt", "hello")] ["/d"] [] []) [0%nat]
    = Ret (s', mkJournal [mkOp "/d/a.txt" "/d/a (1).txt" Move (Some "keep")]) /\
    ToyFs.files s' = [("/d/a (1).txt", "hello")].
Proof.
  split; [vm_compute; reflexivity|]. split; [vm_compute; reflexivity|].
  eexists. split; vm_compute; reflexivity.
Qed.

(** ** Additional properties *)

Lemma get_snoc (num : string) (c : ascii) :
  String.get (String.length num) (num +:+ String c EmptyString) = Some c.
Proof. induction num as [|d num IH]; [reflexivity|exact IH]. Qed.

Lemma append_empty_str (s : string) : (s +:+ EmptyString)%string = s.
Proof. induction s as [|c s IH]; [reflexivity|now rewrite append_cons_str, IH]. Qed.

Lemma substring_snoc (num : string) (c : ascii) :
  substring 0 (String.length num) (num +:+ String c EmptyString) = num.
Proof.
  rewrite <- (Nat.add_0_r (String.length num)), substring_prefix_app.
  cbn. apply append_empty_str.
Qed.


Lemma parse_age_snoc (num : string) (c : ascii) :
  parse_age (num +:+ String c EmptyString) =
  if 128 <=? byte_of c then Panic "byte index is not a char boundary"
  else match parse_i64 num with
       | None => Ret None
       | Some n => unit_delta (lower_char c) n
       end.
Proof.
  unfold parse_age. rewrite length_app_str. cbn [String.length].
  rewrite Nat.add_1_r, get_snoc, substring_snoc. reflexivity.
Qed.

Lemma string_snoc_cases (s : string) :
  s = EmptyString \/ exists num c, s = (num +:+ String c EmptyString)%string.
Proof.
  induction s as [|d s IH]; [by left|right].
  destruct IH as [->|(num & c & ->)].
  - by exists EmptyString, d.
  - exists (String d num), c. by rewrite append_cons_str.
Qed.

Lemma delta_of_ret (n u x : Z) :
  delta_of n u = Ret x ->
  x = n * u * 1000000000 /\ - max_delta_secs <= n * u <= max_delta_secs.
Proof.
  unfold delta_of, i64_mul.
  destruct ((i64_min <=? n * u) && (n * u <=? i64_max)); cbn [obind]; [|discriminate].
  destruct ((- max_delta_secs <=? n * u) && (n * u <=? max_delta_secs)) eqn:Hb;
    [|discriminate].
  intros [= <-]. apply andb_true_iff in Hb as [H1 H2]. split; [done|lia].
Qed.


Lemma unit_delta_ret (u : ascii) (n d : Z) :
  unit_delta u n = Ret (Some d) ->
  - (max_delta_secs * 1000000000) <= d <= max_delta_secs * 1000000000 /\
  d mod (3600 * 1000000000) = 0.
Proof.
  assert (Hm : forall p k, p = k * 3600 -> - max_delta_secs <= p <= max_delta_secs ->
    - (max_delta_secs * 1000000000) <= p * 1000000000 <= max_delta_secs * 1000000000 /\
    (p * 1000000000) mod (3600 * 1000000000) = 0).
  { intros p k -> Hp. split; [lia|].
    replace (k * 3600 * 1000000000) with (k * (3600 * 1000000000)) by ring.
    apply Z.mod_mul. lia. }
  unfold unit_delta.
  destruct (Ascii.eqb u "d"%char).
  { destruct (delta_of n 86400) as [x|] eqn:E; cbn; [|discriminate].
    intros [= <-]. apply delta_of_ret in E as [-> Hb]. apply (Hm _ (n * 24)); [ring|done]. }
  destruct (Ascii.eqb u "w"%char).
  { destruct (delta_of n 604800) as [x|] eqn:E; cbn; [|discriminate].
    intros [= <-]. apply delta_of_ret in E as [-> Hb]. apply (Hm _ (n * 168)); [ring|done]. }
  destruct (Ascii.eqb u "m"%char).
  { destruct (i64_mul n 30) as [n30|] eqn:E30; cbn [obind]; [|discriminate].
    destruct (delta_of n30 86400) as [x|] eqn:E; cbn; [|discriminate].
    intros [= <-]. apply delta_of_ret in E as [-> Hb]. apply (Hm _ (n30 * 24)); [ring|done]. }
  destruct (Ascii.eqb u "y"%char).
  { destruct (i64_mul n 365) as [n365|] eqn:E365; cbn [obind]; [|discriminate].
    destruct (delta_of n365 86400) as [x|] eqn:E; cbn; [|discriminate].
    intros [= <-]. apply delta_of_ret in E as [-> Hb]. apply (Hm _ (n365 * 24)); [ring|done]. }
  destruct (Ascii.eqb u "h"%char); [|discriminate].
  destruct (delta_of n 3600) as [x|] eqn:E; cbn; [|discriminate].
  intros [= <-]. apply delta_of_ret in E as [-> Hb]. apply (Hm _ n); [ring|done].
Qed.

(** [parse_age] (engine.rs) only ever returns a duration that is a whole number
    of hours (in nanoseconds) and lies within the bounds of [TimeDelta], that is
    within [+-i64::MAX] milliseconds; every other input yields [None] or a panic. *)
Theorem parse_age_bounded (s : string) (d : Z) :
  parse_age s = Ret (Some d) ->
  - (max_delta_secs * 1000000000) <= d <= max_delta_secs * 1000000000 /\
  d mod (3600 * 1000000000) = 0.
Proof.
  destruct (string_snoc_cases s) as [->|(num & c & ->)]; [discriminate|].
  rewrite parse_age_snoc.
  destruct (128 <=? byte_of c); [discriminate|].
  destruct (parse_i64 num) as [n|]; [apply unit_delta_ret|discriminate].
Qed.

Lemma parse_age_bounded_witness :
  - (max_delta_secs * 1000000000) <= 7 * 86400 * 1000000000 <= max_delta_secs * 1000000000 /\
  (7 * 86400 * 1000000000) mod (3600 * 1000000000) = 0.
Proof. apply (parse_age_bounded "7D"). vm_compute. reflexivity. Defined.

Lemma lower_char_byte (c : ascii) : (128 <=? byte_of (lower_char c)) = (128 <=? byte_of c).
Proof. destruct c as [[] [] [] [] [] [] [] []]; vm_compute; reflexivity. Qed.

(** The unit letter of a [max_age] string is read case-insensitively: replacing
    the last character by its ASCII lower case does not change what [parse_age]
    returns, panics included. *)
Theorem parse_age_unit_case (num : string) (c : ascii) :
  parse_age (num +:+ String c EmptyString) =
  parse_age (num +:+ String (lower_char c) EmptyString).
Proof. rewrite !parse_age_snoc, lower_char_byte, lower_char_idem. reflexivity. Qed.


Lemma i64_bounds_val : i64_min = -9223372036854775808 /\ i64_max = 9223372036854775807.
Proof. split; reflexivity. Qed.

Lemma max_delta_secs_val : max_delta_secs = 9223372036854775.
Proof. reflexivity. Qed.

Lemma i64_mul_small (a b : Z) :
  - 9223372036854775 <= a * b <= 9223372036854775 -> i64_mul a b = Ret (a * b).
Proof.
  intros H. unfold i64_mul. destruct i64_bounds_val as [-> ->].
  destruct (_ && _) eqn:E; [reflexivity|].
  apply andb_false_iff in E as [E|E]; apply Z.leb_gt in E; lia.
Qed.

Lemma delta_of_small (a b : Z) :
  - 9223372036854775 <= a * b <= 9223372036854775 ->
  delta_of a b = Ret (a * b * 1000000000).
Proof.
  intros H. unfold delta_of. rewrite i64_mul_small by exact H. cbn [obind].
  rewrite max_delta_secs_val.
  destruct (_ && _) eqn:E; [reflexivity|].
  apply andb_false_iff in E as [E|E]; apply Z.leb_gt in E; lia.
Qed.

Lemma parse_age_ascii_unit (num : string) (c : ascii) (n : Z) :
  parse_i64 num = Some n -> (128 <=? byte_of c) = false ->
  parse_age (num +:+ String c EmptyString) = unit_delta (lower_char c) n.
Proof. intros Hn Hc. rewrite parse_age_snoc, Hc, Hn. reflexivity. Qed.

(** For a number part [num] that parses as an [i64] of moderate size, [parse_age]
    reads the suffixes h, d, w, m, y as 1 hour, 1 day, 7 days, 30 days and 365
    days per unit (durations in nanoseconds). *)
Theorem parse_age_units (num : string) (n : Z) :
  parse_i64 num = Some n -> - 1000000 <= n <= 1000000 ->
  parse_age (num +:+ "h") = Ret (Some (n * 3600 * 1000000000)) /\
  parse_age (num +:+ "d") = Ret (Some (n * 86400 * 1000000000)) /\
  parse_age (num +:+ "w") = Ret (Some (n * 604800 * 1000000000)) /\
  parse_age (num +:+ "m") = Ret (Some (n * 30 * 86400 * 1000000000)) /\
  parse_age (num +:+ "y") = Ret (Some (n * 365 * 86400 * 1000000000)).
Proof.
  intros Hn Hb.
  repeat split; rewrite (parse_age_ascii_unit num _ n Hn) by reflexivity;
    match goal with |- context [lower_char ?c] =>
      let l := eval vm_compute in (lower_char c) in change (lower_char c) with l end;
    unfold unit_delta; cbn -[delta_of i64_mul].
  - rewrite delta_of_small by nia. reflexivity.
  - rewrite delta_of_small by nia. reflexivity.
  - rewrite delta_of_small by nia. reflexivity.
  - rewrite i64_mul_small by nia. cbn [obind]. rewrite delta_of_small by nia. reflexivity.
  - rewrite i64_mul_small by nia. cbn [obind]. rewrite delta_of_small by nia. reflexivity.
Qed.

Lemma parse_age_units_witness :
  parse_age ("12" +:+ "h") = Ret (Some (12 * 3600 * 1000000000)) /\
  parse_age ("12" +:+ "d") = Ret (Some (12 * 86400 * 1000000000)) /\
  parse_age ("12" +:+ "w") = Ret (Some (12 * 604800 * 1000000000)) /\
  parse_age ("12" +:+ "m") = Ret (Some (12 * 30 * 86400 * 1000000000)) /\
  parse_age ("12" +:+ "y") = Ret (Some (12 * 365 * 86400 * 1000000000)).
Proof. apply (parse_age_units "12" 12); [reflexivity|lia]. Defined.


Lemma replace_aux_absent (fuel : nat) : forall s p r,
  contains s p = false -> replace_aux fuel s p r = s.
Proof.
  induction fuel as [|fuel IH]; intros s p r H; [reflexivity|].
  destruct s as [|c s']; [reflexivity|].
  cbn [replace_aux]. cbn [contains] in H. apply orb_false_iff in H as [H1 H2].
  rewrite H1, IH by exact H2. reflexivity.
Qed.

Lemma replace_absent (s p r : string) : contains s p = false -> replace s p r = s.
Proof. apply replace_aux_absent. Qed.

Lemma contains_app_prefix (s a b : string) :
  contains s (a +:+ b) = true -> contains s a = true.
Proof.
  rewrite !contains_spec. intros (x & y & ->). exists x, (b +:+ y)%string.
  by rewrite !append_assoc_str.
Qed.

Lemma not_contains_placeholder (s rest : string) :
  contains s "${" = false -> contains s ("${" +:+ rest) = false.
Proof.
  intros H. destruct (contains s ("${" +:+ rest)) eqn:E; [|reflexivity].
  apply contains_app_prefix in E. congruence.
Qed.




Lemma register_sched_route env files plans sched :
  forall seen slots, NoDup sched ->
  (forall i, i ∈ sched -> slots !! i = Some None) ->
  forall j, option_map (option_map op_route)
              ((register_sched env files plans sched seen slots).2 !! j) =
    if decide (j ∈ sched) then Some (planned_route files plans j)
    else option_map (option_map op_route) (slots !! j).
Proof.
  induction sched as [|i rest IH]; intros seen slots Hnd Hfresh j.
  - cbn [register_sched snd]. rewrite decide_False; [done|]. by intros ?%elem_of_nil.
  - apply NoDup_cons in Hnd as [Hnotin Hnd].
    assert (Hi : slots !! i = Some None) by (apply Hfresh; left).
    assert (Hrest : forall k, k ∈ rest -> slots !! k = Some None)
      by (intros k Hk; apply Hfresh; by right).
    assert (Hrest' : forall o k, k ∈ rest -> <[i := o]> slots !! k = Some None)
      by (intros o k Hk; rewrite list_lookup_insert_ne; [by apply Hrest|intros ->; contradiction]).
    cbn [register_sched].
    destruct (decide (j = i)) as [->|Hji].
    + rewrite decide_True by left.
      destruct (files !! i) as [[path v]|] eqn:Hf;
        [destruct (plans !! i) as [[[rule t]|]|] eqn:Hp|].
      * destruct (register seen (calculate_hash env v) t) as [seen' ty].
        rewrite IH by (done || apply Hrest'). rewrite decide_False by done.
        rewrite list_lookup_insert_eq by (eapply lookup_lt_Some; eauto).
        unfold planned_route. by rewrite Hf, Hp.
      * rewrite IH by done. rewrite decide_False, Hi by done.
        unfold planned_route. by rewrite Hf, Hp.
      * rewrite IH by done. rewrite decide_False, Hi by done.
        unfold planned_route. by rewrite Hf, Hp.
      * rewrite IH by done. rewrite decide_False, Hi by done.
        unfold planned_route. by rewrite Hf.
    + assert (Hdec : (if decide (j ∈ i :: rest) then Some (planned_route files plans j)
                      else option_map (option_map op_route) (slots !! j)) =
                     (if decide (j ∈ rest) then Some (planned_route files plans j)
                      else option_map (option_map op_route) (slots !! j))).
      { destruct (decide (j ∈ rest)) as [Hin|Hin].
        - by rewrite decide_True by by right.
        - rewrite decide_False; [done|]. intros [?|?]%elem_of_cons; contradiction. }
      rewrite Hdec.
      destruct (files !! i) as [[path v]|];
        [destruct (plans !! i) as [[[rule t]|]|]|];
        try (rewrite IH by done; reflexivity).
      destruct (register seen (calculate_hash env v) t) as [seen' ty].
      rewrite IH by (done || apply Hrest').
      by rewrite list_lookup_insert_ne by congruence.
Qed.

Lemma lookup_map_opt {A B} (f : A -> B) (l : list A) (i : nat) :
  map f l !! i = option_map f (l !! i).
Proof. revert i. induction l as [|x l IH]; intros [|i]; cbn; auto. Qed.

Lemma omap_route (slots : list (option Operation)) :
  map op_route (omap id slots) = omap id (map (option_map op_route) slots).
Proof. induction slots as [|[o|] slots IH]; cbn; [done|by rewrite IH|done]. Qed.

Lemma dry_run_slots_routes env e files sched1 sched2 seen1 seen2 slots1 slots2 :
  sched1 ≡ₚ seq 0 (List.length files) -> sched2 ≡ₚ seq 0 (List.length files) ->
  dry_run_slots env e files sched1 = Ret (seen1, slots1) ->
  dry_run_slots env e files sched2 = Ret (seen2, slots2) ->
  map (option_map op_route) slots1 = map (option_map op_route) slots2.
Proof.
  intros Hp1 Hp2 H1 H2. unfold dry_run_slots in H1, H2.
  destruct (omapM _ files) as [plans|w]; cbn [obind] in H1, H2; [|discriminate].
  injection H1 as H1. injection H2 as H2.
  assert (Hfresh : forall sched, sched ≡ₚ seq 0 (List.length files) ->
    forall i, i ∈ sched -> replicate (List.length files) (@None Operation) !! i = Some None).
  { intros sched Hp i Hi. rewrite Hp, elem_of_seq in Hi.
    apply lookup_replicate. split; [done|lia]. }
  apply list_eq. intros j. rewrite !lookup_map_opt.
  pose proof (register_sched_route env files plans sched1 ∅
    (replicate (List.length files) None) ltac:(rewrite Hp1; apply NoDup_seq)
    (Hfresh _ Hp1) j) as R1.
  pose proof (register_sched_route env files plans sched2 ∅
    (replicate (List.length files) None) ltac:(rewrite Hp2; apply NoDup_seq)
    (Hfresh _ Hp2) j) as R2.
  rewrite H1 in R1. rewrite H2 in R2. cbn [snd] in R1, R2. rewrite R1, R2.
  destruct (decide (j ∈ sched1)) as [J1|J1]; destruct (decide (j ∈ sched2)) as [J2|J2];
    try reflexivity; exfalso.
  - apply J2. by rewrite Hp2, <- Hp1.
  - apply J1. by rewrite Hp1, <- Hp2.
Qed.

Lemma dry_run_routes_eq (env : Env) (e : Engine)
    (files : list (string * FileView)) (sched1 sched2 : list nat) (ops1 ops2 : list Operation) :
  sched1 ≡ₚ seq 0 (List.length files) -> sched2 ≡ₚ seq 0 (List.length files) ->
  dry_run env e files sched1 = Ret ops1 -> dry_run env e files sched2 = Ret ops2 ->
  map op_route ops1 = map op_route ops2.
Proof.
  intros Hp1 Hp2 H1 H2. unfold dry_run in H1, H2.
  destruct (dry_run_slots env e files sched1) as [[seen1 slots1]|w] eqn:E1;
    cbn [obind] in H1; [|discriminate].
  destruct (dry_run_slots env e files sched2) as [[seen2 slots2]|w] eqn:E2;
    cbn [obind] in H2; [|discriminate].
  injection H1 as <-. injection H2 as <-. cbn [snd].
  rewrite !omap_route. f_equal.
  exact (dry_run_slots_routes env e files sched1 sched2 seen1 seen2 slots1 slots2 Hp1 Hp2 E1 E2).
Qed.

(** Whatever order the parallel planning pass registers the files in, [dry_run]
    plans the same sources, destinations and rule names, in the same order; only
    the choice of which duplicate is the canonical [Move] may depend on it. *)
Theorem dry_run_routes_schedule_independent (env : Env) (e : Engine)
    (files : list (string * FileView)) (sched1 sched2 : list nat) (ops1 ops2 : list Operation) :
  sched1 ≡ₚ seq 0 (List.length files) -> sched2 ≡ₚ seq 0 (List.length files) ->
  dry_run env e files sched1 = Ret ops1 -> dry_run env e files sched2 = Ret ops2 ->
  map op_route ops1 = map op_route ops2.
Proof. apply dry_run_routes_eq. Qed.

Lemma dry_run_slots_inv env e files sched seen slots :
  sched ≡ₚ seq 0 (List.length files) ->
  dry_run_slots env e files sched = Ret (seen, slots) ->
  dedup_inv env files seen slots.
Proof.
  intros Hperm Hrun. unfold dry_run_slots in Hrun.
  destruct (omapM _ files) as [plans|]; cbn [obind] in Hrun; [|discriminate].
  injection Hrun as Hrun.
  pose proof (register_sched_inv env files plans sched ∅
    (replicate (List.length files) None)) as Hinv.
  rewrite Hrun in Hinv. apply Hinv.
  - rewrite Hperm. apply NoDup_seq.
  - intros i Hi. rewrite Hperm, elem_of_seq in Hi.
    apply lookup_replicate. split; [done|lia].
  - split.
    + intros i op Hi. apply lookup_replicate in Hi as [? _]. discriminate.
    + intros h. rewrite lookup_empty. intros i op Hi.
      apply lookup_replicate in Hi as [? _]. discriminate.
Qed.

Lemma route_move_eq (op1 op2 : Operation) :
  op_route op1 = op_route op2 -> op_type op1 = Move -> op_type op2 = Move -> op1 = op2.
Proof.
  destruct op1, op2; unfold op_route; cbn. intros [= -> -> ->] -> ->. reflexivity.
Qed.

(** When no two listed files share a content digest, [dry_run] plans only
    [Move] operations and its result does not depend on the registration order. *)
Theorem dry_run_unique_digests (env : Env) (e : Engine) (files : list (string * FileView))
    (sched1 sched2 : list nat) (ops1 ops2 : list Operation) :
  (forall i j h, file_hash env files i = Some h -> file_hash env files j = Some h -> i = j) ->
  sched1 ≡ₚ seq 0 (List.length files) -> sched2 ≡ₚ seq 0 (List.length files) ->
  dry_run env e files sched1 = Ret ops1 -> dry_run env e files sched2 = Ret ops2 ->
  Forall (fun op => op_type op = Move) ops1 /\ ops1 = ops2.
Proof.
  intros Huniq Hp1 Hp2 H1 H2.
  assert (Hmove : forall sched ops, sched ≡ₚ seq 0 (List.length files) ->
            dry_run env e files sched = Ret ops -> Forall (fun op => op_type op = Move) ops).
  { intros sched ops Hp H. unfold dry_run in H.
    destruct (dry_run_slots env e files sched) as [[seen slots]|w] eqn:E;
      cbn [obind] in H; [|discriminate].
    injection H as <-. cbn [snd].
    destruct (dry_run_slots_inv _ _ _ _ _ _ Hp E) as [Hnone Htab].
    apply Forall_forall. intros op Hin.
    apply list_elem_of_omap in Hin as (o & Ho & Hid).
    destruct o as [o|]; cbn in Hid; [|discriminate]. injection Hid as ->.
    apply list_elem_of_lookup in Ho as (i & Hi).
    destruct (file_hash env files i) as [h|] eqn:Hh; [|eauto].
    specialize (Htab h). destruct (seen !! h) as [p|].
    - destruct Htab as (c & opc & Hc & Hch & Hcm & _ & _).
      assert (i = c) as -> by (eapply Huniq; eauto). congruence.
    - exfalso. eapply Htab; eauto. }
  pose proof (Hmove _ _ Hp1 H1) as M1. pose proof (Hmove _ _ Hp2 H2) as M2.
  split; [exact M1|].
  pose proof (dry_run_routes_eq env e files sched1 sched2 ops1 ops2
    Hp1 Hp2 H1 H2) as R.
  clear -R M1 M2. revert ops2 R M2.
  induction M1 as [|o1 ops1 Ho1 M1 IH]; intros [|o2 ops2] R M2; try discriminate; [done|].
  assert (Rh : op_route o1 = op_route o2 /\ map op_route ops1 = map op_route ops2)
    by (cbn [map] in R; split; congruence).
  destruct Rh as [R1 Rs]. inversion M2; subst.
  f_equal; [by apply route_move_eq|by apply IH].
Qed.

Lemma dry_run_routes_schedule_independent_witness :
  exists ops1 ops2,
    dry_run env0 (engine_at "/d" [txt_rule "t" "out"]) dedup_files [2; 1; 0]%nat = Ret ops1 /\
    dry_run env0 (engine_at "/d" [txt_rule "t" "out"]) dedup_files [0; 1; 2]%nat = Ret ops2 /\
    map op_route ops1 = map op_route ops2.
Proof.
  destruct (dry_run env0 (engine_at "/d" [txt_rule "t" "out"]) dedup_files [2; 1; 0]%nat)
    as [ops1|w] eqn:E1; [|vm_compute in E1; discriminate].
  destruct (dry_run env0 (engine_at "/d" [txt_rule "t" "out"]) dedup_files [0; 1; 2]%nat)
    as [ops2|w] eqn:E2; [|vm_compute in E2; discriminate].
  exists ops1, ops2. split; [reflexivity|split; [reflexivity|]].
  apply (dry_run_routes_schedule_independent env0 (engine_at "/d" [txt_rule "t" "out"])
    dedup_files [2; 1; 0]%nat [0; 1; 2]%nat); [|reflexivity|exact E1|exact E2].
  symmetry. exact (Permutation_rev (seq 0 3)).
Defined.


Lemma dry_run_unique_digests_witness :
  exists ops1 ops2,
    dry_run env0 (engine_at "/d" [txt_rule "t" "out"]) distinct_files [2; 1; 0]%nat = Ret ops1 /\
    dry_run env0 (engine_at "/d" [txt_rule "t" "out"]) distinct_files [0; 1; 2]%nat = Ret ops2 /\
    Forall (fun op => op_type op = Move) ops1 /\ ops1 = ops2.
Proof.
  destruct (dry_run env0 (engine_at "/d" [txt_rule "t" "out"]) distinct_files [2; 1; 0]%nat)
    as [ops1|w] eqn:E1; [|vm_compute in E1; discriminate].
  destruct (dry_run env0 (engine_at "/d" [txt_rule "t" "out"]) distinct_files [0; 1; 2]%nat)
    as [ops2|w] eqn:E2; [|vm_compute in E2; discriminate].
  exists ops1, ops2. split; [reflexivity|split; [reflexivity|]].
  apply (dry_run_unique_digests env0 (engine_at "/d" [txt_rule "t" "out"])
    distinct_files [2; 1; 0]%nat [0; 1; 2]%nat); [| |reflexivity|exact E1|exact E2].
  - intros i j h Hi Hj.
    destruct i as [|[|[|i]]]; destruct j as [|[|[|j]]]; vm_compute in Hi, Hj; congruence.
  - symmetry. exact (Permutation_rev (seq 0 3)).
Defined.


Lemma omap_id_map {A B} (f : A -> option B) (l : list A) :
  omap (@id (option B)) (map f l) = omap f l.
Proof. induction l as [|x l IH]; cbn; [done|]. destruct (f x); cbn; by rewrite IH. Qed.

(** The operations of [dry_run] follow the listing order: every listed file for
    which the per-file planning step finds a rule and a destination gives one
    operation, from that file to that destination under the rule's name, and
    no other operation is planned.  A destination equal to the file itself is
    kept ([dry_run] has no such filter). *)
Theorem dry_run_routes (env : Env) (e : Engine) (files : list (string * FileView))
    (sched : list nat) (ops : list Operation) :
  sched ≡ₚ seq 0 (List.length files) ->
  dry_run env e files sched = Ret ops ->
  exists plans,
    omapM (fun '(p, v) => plan_file env e p v) files = Ret plans /\
    map op_route ops = omap (planned_route files plans) (seq 0 (List.length files)).
Proof.
  intros Hp H. unfold dry_run, dry_run_slots in H.
  destruct (omapM _ files) as [plans|w] eqn:Hplans; cbn [obind] in H; [|discriminate].
  injection H as <-. exists plans. split; [reflexivity|]. cbn [snd].
  rewrite omap_route, <- (omap_id_map (planned_route files plans)). f_equal.
  apply list_eq. intros j. rewrite !lookup_map_opt.
  rewrite (register_sched_route env files plans sched ∅ (replicate (List.length files) None)).
  - destruct (decide (j ∈ sched)) as [Hj|Hj].
    + rewrite Hp, elem_of_seq in Hj. rewrite lookup_seq_lt by lia. reflexivity.
    + rewrite Hp, elem_of_seq in Hj.
      rewrite (proj1 (lookup_replicate_None _ _ _)), lookup_seq_ge; [reflexivity|lia|lia].
  - rewrite Hp. apply NoDup_seq.
  - intros i Hi. rewrite Hp, elem_of_seq in Hi.
    apply lookup_replicate. split; [done|lia].
Qed.

Lemma dry_run_routes_witness :
  exists ops plans,
    dry_run env0 (engine_at "/d" [txt_rule "t" "out"]) dedup_files [2; 1; 0]%nat = Ret ops /\
    omapM (fun '(p, v) => plan_file env0 (engine_at "/d" [txt_rule "t" "out"]) p v) dedup_files
      = Ret plans /\
    map op_route ops = omap (planned_route dedup_files plans) (seq 0 (List.length dedup_files)).
Proof.
  destruct (dry_run env0 (engine_at "/d" [txt_rule "t" "out"]) dedup_files [2; 1; 0]%nat)
    as [ops|w] eqn:E; [|vm_compute in E; discriminate].
  destruct (dry_run_routes env0 (engine_at "/d" [txt_rule "t" "out"]) dedup_files
    [2; 1; 0]%nat ops ltac:(symmetry; exact (Permutation_rev (seq 0 3))) E) as (plans & Hp & Hr).
  exists ops, plans. split; [reflexivity|]. split; [exact Hp|exact Hr].
Defined.

Lemma match_scan_some env ai path v md dext dmime fext : forall rules r,
  match_scan env ai path v md dext dmime fext rules = Ret (Some r) ->
  In r rules /\ fst (rule_predicates env ai path v dext dmime fext r) = true /\
  size_filter_fails md r = false.
Proof.
  induction rules as [|r0 rest IH]; intros r; cbn [match_scan]; [discriminate|].
  destruct (fst (rule_predicates env ai path v dext dmime fext r0)) eqn:Hp.
  - destruct (size_filter_fails md r0) eqn:Hs.
    + intros H. destruct (IH r H) as (? & ? & ?). split; [by right|done].
    + destruct (age_filter_fails env md r0) as [[|]|w]; cbn [obind].
      * intros H. destruct (IH r H) as (? & ? & ?). split; [by right|done].
      * intros [= <-]. split; [by left|done].
      * discriminate.
  - intros H. destruct (IH r H) as (? & ? & ?). split; [by right|done].
Qed.

Lemma rule_predicates_some_criterion env ai path v dext dmime fext r :
  fst (rule_predicates env ai path v dext dmime fext r) = true ->
  rule_mime r <> None \/ rule_type r <> None \/ rule_extensions r <> None \/
  rule_regex r <> None \/ rule_ai_prompt r <> None.
Proof.
  unfold rule_predicates, rule_mime_matches, rule_type_matches, rule_ext_matches,
    rule_regex_matches.
  destruct (rule_mime r); [left; discriminate|].
  destruct (rule_type r); [right; left; discriminate|].
  destruct (rule_extensions r); [right; right; left; discriminate|].
  destruct (rule_regex r); [right; right; right; left; discriminate|].
  destruct (rule_ai_prompt r); [right; right; right; right; discriminate|].
  cbn. discriminate.
Qed.

(** A rule returned by [match_rule] is one of the configured rules, the file's
    metadata was readable and satisfies the rule's [min_size], and the rule has
    at least one criterion (mime, type, extensions, regex or AI prompt): a rule
    without criteria is never selected. *)
Theorem match_rule_selected (env : Env) (e : Engine) (path : string) (v : FileView) (r : Rule) :
  match_rule env e path v = Ret (Some r) ->
  In r (config_rules (engine_config e)) /\
  (exists md, fv_metadata v = Some md /\
     forall m, rule_min_size r = Some m -> m <= md_len md) /\
  (rule_mime r <> None \/ rule_type r <> None \/ rule_extensions r <> None \/
   rule_regex r <> None \/ rule_ai_prompt r <> None).
Proof.
  unfold match_rule. destruct (fv_metadata v) as [md|]; [|discriminate].
  intros H. apply match_scan_some in H as (Hin & Hp & Hs).
  split; [done|]. split.
  - exists md. split; [done|]. intros m Hm. unfold size_filter_fails in Hs.
    rewrite Hm in Hs. apply Z.ltb_ge in Hs. exact Hs.
  - eapply rule_predicates_some_criterion; exact Hp.
Qed.

Lemma match_rule_selected_witness :
  In (txt_rule "t" "out") (config_rules (engine_config (engine_at "/d" [txt_rule "t" "out"]))) /\
  (exists md, fv_metadata keep_file = Some md /\
     forall m, rule_min_size (txt_rule "t" "out") = Some m -> m <= md_len md) /\
  (rule_mime (txt_rule "t" "out") <> None \/ rule_type (txt_rule "t" "out") <> None \/
   rule_extensions (txt_rule "t" "out") <> None \/
   rule_regex (txt_rule "t" "out") <> None \/ rule_ai_prompt (txt_rule "t" "out") <> None).
Proof.
  apply (match_rule_selected env0 (engine_at "/d" [txt_rule "t" "out"]) "/d/a.txt" keep_file).
  vm_compute. reflexivity.
Defined.

Section ExecuteOrder.
Context {St : Type} `{Fs St}.

Lemma execute_loop_sublist env e jp : forall ops (s : St) acc s' J,
  execute_loop env e jp s ops acc = Ret (s', J) ->
  exists sel : list (Operation * string),
    map fst sel `sublist_of` ops /\
    J = acc ++ map (fun '(op, t) => with_to op t) sel /\
    Forall (fun '(op, t) => exists s1 s2 : St,
              handle_conflict env e s1 op = Ret (Ok (Some t)) /\
              apply_op s1 op t = (s2, true)) sel.
Proof.
  induction ops as [|op rest IH]; intros s acc s' J Hrun; cbn [execute_loop] in Hrun.
  - injection Hrun as _ <-. exists []. split; [constructor|].
    split; [by rewrite app_nil_r|constructor].
  - destruct (execute_step env e jp s op) as [[s1 entry]|w] eqn:Hst; cbn [obind] in Hrun;
      [|discriminate].
    destruct (IH _ _ _ _ Hrun) as (sel & Hsub & -> & Hall).
    destruct entry as [y|].
    + destruct (execute_step_some _ _ _ _ _ _ _ Hst)
        as (? & s2 & t & s3 & _ & _ & Hhc & Hap & -> & _).
      exists ((op, t) :: sel). split; [|split].
      * cbn [map fst]. by apply sublist_skip.
      * cbn. by rewrite <- app_assoc.
      * constructor; [by exists s2, s3|exact Hall].
    + exists sel. split; [by apply sublist_cons|]. split; [|exact Hall].
      cbn. by rewrite app_nil_r.
Qed.

Lemma undo_run_le (s : St) ops s' n : undo_run s ops s' n -> (n <= List.length ops)%nat.
Proof. induction 1; cbn; lia. Qed.

Lemma undo_run_none_exist (s : St) ops :
  Forall (fun op => fs_exists s (op_to op) = false) ops -> undo_run s ops s 0.
Proof. induction 1; constructor; auto. Qed.

End ExecuteOrder.



(** The count reported by undo is at most the number of journal entries, and
    when no recorded destination exists undo changes nothing and reports 0. *)
Theorem undo_count_bound {St : Type} `{Fs St} (s : St) (journal : JournalEntry) :
  (forall s' n, undo s journal = (s', Ok n) ->
     (n <= List.length (journal_operations journal))%nat) /\
  (Forall (fun op => fs_exists s (op_to op) = false) (journal_operations journal) ->
     undo s journal = (s, Ok 0%nat)).
Proof.
  unfold undo. split.
  - intros s' n Hu. apply undo_loop_ok in Hu as (k & -> & Hr).
    apply undo_run_le in Hr. rewrite length_rev in Hr. lia.
  - intros Hall. apply undo_loop_ok. exists 0%nat. split; [done|].
    apply undo_run_none_exist. by apply Forall_rev.
Qed.

Lemma undo_count_bound_witness :
  undo undo_after_move (mkJournal [mkOp "/d/c" "/d/gone" Move None]) = (undo_after_move, Ok 0%nat).
Proof.
  apply (proj2 (undo_count_bound undo_after_move (mkJournal [mkOp "/d/c" "/d/gone" Move None]))).
  repeat constructor.
Defined.


Lemma bytes_of_app (a b : string) : bytes_of (a +:+ b) = bytes_of a ++ bytes_of b.
Proof. induction a as [|c a IH]; [reflexivity|]. rewrite append_cons_str. cbn. by rewrite IH. Qed.

Lemma printable_app (a b : string) : printable (a +:+ b) = printable a && printable b.
Proof. unfold printable. by rewrite bytes_of_app, forallb_app. Qed.

Lemma hex_digit_printable (n : Z) : 0 <= n < 16 -> (32 <=? byte_of (hex_digit n)) = true.
Proof.
  intros Hn. apply Z.leb_le. unfold byte_of, hex_digit.
  assert (Hk : 48 <= (if n <? 10 then 48 + n else 87 + n) < 256)
    by (destruct (Z.ltb_spec n 10); lia).
  rewrite nat_ascii_embedding by lia. lia.
Qed.

Lemma byte_of_range (c : ascii) : 0 <= byte_of c < 256.
Proof. unfold byte_of. pose proof (nat_ascii_bounded c). lia. Qed.

Lemma json_escape_printable (s : string) : printable (json_escape s) = true.
Proof.
  induction s as [|c s IH]; [reflexivity|].
  cbn [json_escape]. rewrite printable_app, IH, andb_true_r.
  pose proof (byte_of_range c) as Hr.
  destruct (byte_of c =? 34); [reflexivity|].
  destruct (byte_of c =? 92); [reflexivity|].
  destruct (byte_of c =? 8); [reflexivity|].
  destruct (byte_of c =? 9); [reflexivity|].
  destruct (byte_of c =? 10); [reflexivity|].
  destruct (byte_of c =? 12); [reflexivity|].
  destruct (byte_of c =? 13); [reflexivity|].
  destruct (byte_of c <? 32) eqn:Hlt.
  - apply Z.ltb_lt in Hlt.
    unfold printable. cbn [bytes_of]. rewrite !bytes_of_app. cbn [bytes_of].
    cbn [forallb]. rewrite forallb_app. cbn.
    rewrite !hex_digit_printable; [reflexivity| |]; split.
    all: first [apply Z.div_pos | apply Z.div_lt_upper_bound | apply Z.mod_pos_bound | idtac]; lia.
  - apply Z.ltb_ge in Hlt. unfold printable. cbn. rewrite andb_true_r. by apply Z.leb_le.
Qed.

(** The JSON text that [append_to_file] writes per operation contains only bytes
    of value at least 32; in particular it contains no newline, so every
    journal entry is exactly one line of the journal file. *)
Theorem op_json_printable (op : Operation) :
  printable (op_json op) = true /\ ~ In 10 (bytes_of (op_json op)).
Proof.
  assert (Hp : printable (op_json op) = true).
  { unfold op_json, json_field, json_str.
    rewrite !printable_app, !json_escape_printable.
    destruct (op_type op) as [|p]; destruct (op_rule_name op) as [n|];
      rewrite ?printable_app, ?json_escape_printable; reflexivity. }
  split; [exact Hp|]. intros Hin. unfold printable in Hp.
  rewrite forallb_forall in Hp. specialize (Hp 10 Hin). discriminate.
Qed.
